(** * car_dispatch: the IndexedDB persistence layer (db.js) and the
      offline cache controller (sw.js)

    A shallow embedding of the two scripts.  The browser platform
    (promises, IndexedDB requests and transactions, the Cache API) is
    modelled by explicit state passing; the handlers registered by the
    scripts are transcribed as functions on that state.

    What is assumed of the platform:
    - a promise settles once; later [resolve] / [reject] calls are
      ignored;
    - the requests of a transaction run in the order they were placed;
    - a request error nobody handles aborts its transaction, and an
      abort discards every write of the transaction;
    - a transaction on a store starts after the readwrite transactions
      opened before it on that store have finished;
    - a ['prev'] cursor on an index walks the entries by decreasing
      value, then by decreasing primary key;
    - [cache.addAll] stores all the responses or none.

    What is assumed of the data:
    - the key of an item of [families] / [cars] is a string; an item
      handed to [bulkAdd] may also lack its key;
    - the key of a snapshot record is an integer, and so is the [id] an
      imported or edited record carries;
    - a [timestamp] is an integer, or is no valid key at all (absent,
      [undefined]); a retention limit is an integer;
    - a string is held as the bytes of its UTF-8 encoding;
    - a response is its status, type and body, and a request is a GET
      request for its URL. *)

From stdpp Require Import gmap strings list sorting.
From Stdlib Require Import ZArith Lia Ascii.

Local Open Scope Z_scope.

(** ** Errors surfaced by the platform or built by the scripts *)

Inductive error : Type :=
| OpenFailed (msg : string)   (* reject('IndexedDB error: ' + message) *)
| OpenBlocked                 (* reject(new Error(...)) in request.onblocked *)
| ConstraintError             (* store.add on a key that already exists, or
                                 with the key generator used up *)
| DataError                   (* store.add on an item without a valid key *)
| AbortError                  (* request cancelled by a transaction abort *)
| DeleteFailed                (* deleteRequest.onerror *)
| BlockedError                (* err.name = 'BlockedError' in clearDatabase *)
| NetworkError (url : string) (* fetch() rejected / addAll could not fetch *)
| CacheOpenError              (* caches.open rejected *)
| QuotaExceededError          (* the cache refused a write *)
| InvalidStateError.          (* cache.addAll on two requests for one URL *)

Global Instance error_eq_dec : EqDecision error.
Proof. solve_decision. Defined.

(** ** Promises

    A promise settles at most once: [resolve] and [reject] on a settled
    promise do nothing. *)

Module Promise.

Inductive state (A : Type) : Type :=
| Pending
| Fulfilled (a : A)
| Rejected (e : error).
Arguments Pending {A}.
Arguments Fulfilled {A} a.
Arguments Rejected {A} e.

Definition resolve {A} (a : A) (p : state A) : state A :=
  match p with
  | Pending => Fulfilled a
  | _ => p
  end.

Definition reject {A} (e : error) (p : state A) : state A :=
  match p with
  | Pending => Rejected e
  | _ => p
  end.

Definition settled {A} (p : state A) : bool :=
  match p with
  | Pending => false
  | _ => true
  end.

End Promise.

Export Promise(Pending, Fulfilled, Rejected).

(** ** Stored data (db.js, onupgradeneeded)

    [families] and [cars] use an in-line string key ([familyName], [id]);
    [savedStates] and [savedParking] use an auto-incremented numeric key
    and carry a non-unique [timestamp] index.  The payload of a snapshot
    ([state] / [parking]) is never inspected.  A record written by
    [saveState] / [saveParking] carries [timestamp: Date.now()]; one
    written through [addParking] / [updateParking] carries what the
    caller put there, and [None] stands for a [timestamp] that is not a
    valid key: the index has no entry for such a record. *)

Record snapshot : Type := MkSnapshot {
  name : string;
  payload : string;
  timestamp : option Z
}.

(** The object literal of [saveState] / [saveParking] (db.js 161-165,
    214-218). *)
Abbreviation Snapshot name payload now :=
  (MkSnapshot name payload (Some now)).

Global Instance snapshot_eq_dec : EqDecision snapshot.
Proof. solve_decision. Defined.

(** An object store with [autoIncrement: true]: its records by primary
    key and the current value of its key generator.  A key generator
    hands out its current number and moves to the next one; past
    [MAX_GENERATED_KEY] (2^53) it hands out nothing any more. *)
Definition MAX_GENERATED_KEY : Z := 9007199254740992.

Record AutoStore : Type := MkAutoStore {
  records : gmap Z snapshot;
  keyGen : Z
}.

Inductive kv_store_name : Type := STORE_FAMILIES | STORE_CARS.
Inductive snap_store_name : Type := STORE_SAVED_STATES | STORE_SAVED_PARKING.

Global Instance snap_store_name_eq_dec : EqDecision snap_store_name.
Proof. solve_decision. Defined.

Record Database : Type := MkDatabase {
  families : gmap string string;
  cars : gmap string string;
  savedStates : AutoStore;
  savedParking : AutoStore
}.

Definition empty_store : AutoStore := MkAutoStore ∅ 1.
Definition empty_database : Database :=
  MkDatabase ∅ ∅ empty_store empty_store.

Definition kv_store (n : kv_store_name) (d : Database) : gmap string string :=
  match n with
  | STORE_FAMILIES => families d
  | STORE_CARS => cars d
  end.

Definition set_kv_store (n : kv_store_name) (m : gmap string string)
    (d : Database) : Database :=
  match n with
  | STORE_FAMILIES => MkDatabase m (cars d) (savedStates d) (savedParking d)
  | STORE_CARS => MkDatabase (families d) m (savedStates d) (savedParking d)
  end.

Definition snap_store (n : snap_store_name) (d : Database) : AutoStore :=
  match n with
  | STORE_SAVED_STATES => savedStates d
  | STORE_SAVED_PARKING => savedParking d
  end.

Definition set_snap_store (n : snap_store_name) (s : AutoStore)
    (d : Database) : Database :=
  match n with
  | STORE_SAVED_STATES => MkDatabase (families d) (cars d) s (savedParking d)
  | STORE_SAVED_PARKING => MkDatabase (families d) (cars d) (savedStates d) s
  end.

(** ** The page's state: the module-level [dbPromise], the promises
    allocated so far (a promise is identified by its position in [heap]),
    the number of [indexedDB.open] requests issued, and the database. *)

Record World : Type := MkWorld {
  dbPromise : option nat;
  heap : list (Promise.state unit);
  opens : nat;
  disk : Database
}.

Definition initial_world : World := MkWorld None [] 0%nat empty_database.

Definition set_disk (d : Database) (w : World) : World :=
  MkWorld (dbPromise w) (heap w) (opens w) d.

(** [getDB] (db.js 13-66): return the memoized promise when there is
    one; otherwise allocate a promise whose executor issues
    [indexedDB.open], memoize it and return it. *)
Definition getDB (w : World) : nat * World :=
  match dbPromise w with
  | Some p => (p, w)
  | None =>
      let p := length (heap w) in
      (p, MkWorld (Some p) (heap w ++ [Pending]) (S (opens w)) (disk w))
  end.

(** Events of an open request; the request created in the executor of
    promise [p] settles exactly that promise. *)
Inductive open_event : Type :=
| open_onsuccess
| open_onerror (msg : string)
| open_onblocked.

Definition settle_open (ev : open_event) (s : Promise.state unit)
    : Promise.state unit :=
  match ev with
  | open_onsuccess => Promise.resolve () s
  | open_onerror msg => Promise.reject (OpenFailed msg) s
  | open_onblocked => Promise.reject OpenBlocked s
  end.

Definition deliver_open (p : nat) (ev : open_event) (w : World) : World :=
  MkWorld (dbPromise w) (alter (settle_open ev) p (heap w)) (opens w) (disk w).

(** What [await p] observes. *)
Definition await (p : nat) (w : World) : Promise.state unit :=
  default Pending (heap w !! p).

(** [clearDatabase] (db.js 261-294): close and forget the memoized
    connection (a failed open is ignored), then delete the whole
    database.  [del] is the outcome the platform gives to the delete
    request. *)
Inductive delete_event : Type :=
| delete_onsuccess
| delete_onerror
| delete_onblocked.

Definition clearDatabase (del : delete_event) (w : World)
    : Promise.state unit * World :=
  let forget := MkWorld None (heap w) (opens w) (disk w) in
  let proceed (w' : World) :=
    match del with
    | delete_onsuccess => (Fulfilled (), set_disk empty_database w')
    | delete_onerror => (Rejected DeleteFailed, w')
    | delete_onblocked => (Rejected BlockedError, w')
    end in
  match dbPromise w with
  | Some p =>
      match await p w with
      | Pending => (Pending, w)            (* suspended at [await dbPromise] *)
      | Fulfilled _ => proceed forget      (* db.close(); dbPromise = null *)
      | Rejected _ => proceed forget       (* catch: warn; dbPromise = null *)
      end
  | None => proceed w
  end.

(** ** Transactions (db.js, performTransaction)

    A request placed on an object store either succeeds with a result or
    fails with an error.  An unhandled request error aborts the enclosing
    transaction, which discards everything the transaction wrote. *)

Inductive request_result (A : Type) : Type :=
| ReqSuccess (a : A)
| ReqError (e : error).
Arguments ReqSuccess {A} a.
Arguments ReqError {A} e.

Inductive txn_mode : Type := readonly | readwrite.

(** A store name resolved to the place of that store in the database. *)
Record StoreRef (S : Type) : Type := MkStoreRef {
  sel : Database -> S;
  upd : S -> Database -> Database
}.
Arguments sel {S} _ _.
Arguments upd {S} _ _ _.

Definition snap_ref (n : snap_store_name) : StoreRef AutoStore :=
  MkStoreRef AutoStore (snap_store n) (set_snap_store n).

Definition kv_ref (n : kv_store_name) : StoreRef (gmap string string) :=
  MkStoreRef (gmap string string) (kv_store n) (set_kv_store n).

(** [performTransaction] (db.js 69-93): [await getDB()], open a
    transaction on one store, place the single request built by
    [action]; the returned promise is resolved by [request.onsuccess]
    and rejected by [request.onerror] / [transaction.onerror]. *)
Definition performTransaction {S A : Type} (storeName : StoreRef S)
    (mode : txn_mode) (action : S -> request_result A * S) (w : World)
    : Promise.state A * World :=
  let '(p, w1) := getDB w in
  match await p w1 with
  | Pending => (Pending, w1)
  | Rejected e => (Rejected e, w1)
  | Fulfilled _ =>
      match action (sel storeName (disk w1)) with
      | (ReqSuccess a, s') =>
          match mode with
          | readwrite => (Fulfilled a, set_disk (upd storeName s' (disk w1)) w1)
          | readonly => (Fulfilled a, w1)
          end
      | (ReqError e, _) => (Rejected e, w1)
      end
  end.

(** *** Requests on the object stores *)

(** [store.add(item)] on a store with an in-line string key. *)
Definition store_add_inline (item : string * string) (m : gmap string string)
    : request_result string * gmap string string :=
  match m !! item.1 with
  | Some _ => (ReqError ConstraintError, m)
  | None => (ReqSuccess item.1, <[item.1 := item.2]> m)
  end.

(** [store.put(item)], [store.delete(key)], [store.get(key)]. *)
Definition store_put_inline (item : string * string) (m : gmap string string)
    : request_result string * gmap string string :=
  (ReqSuccess item.1, <[item.1 := item.2]> m).

Definition store_delete_inline (key : string) (m : gmap string string)
    : request_result unit * gmap string string :=
  (ReqSuccess (), delete key m).

Definition store_get_inline (key : string) (m : gmap string string)
    : request_result (option string) * gmap string string :=
  (ReqSuccess (m !! key), m).

(** [store.add(item)] on an auto-increment store, for an item without an
    [id]: the key generator supplies the key and advances; a generator
    that is used up makes the request fail. *)
Definition store_add (item : snapshot) (s : AutoStore)
    : request_result Z * AutoStore :=
  if bool_decide (keyGen s > MAX_GENERATED_KEY) then
    (ReqError ConstraintError, s)
  else
    match records s !! keyGen s with
    | Some _ => (ReqError ConstraintError, s)
    | None =>
        (ReqSuccess (keyGen s),
         MkAutoStore (<[keyGen s := item]> (records s)) (keyGen s + 1))
    end.

(** [store.getAll()]: every record, in ascending order of primary key. *)
Definition by_key (a b : Z * snapshot) : Prop := a.1 <= b.1.

Global Instance by_key_dec : RelDecision by_key.
Proof. intros a b. unfold by_key. apply _. Defined.

Definition store_getAll (s : AutoStore)
    : request_result (list (Z * snapshot)) * AutoStore :=
  (ReqSuccess (merge_sort by_key (map_to_list (records s))), s).

(** *** The CRUD functions of db.js *)

Definition add (storeName : snap_store_name) (item : snapshot)
    : World -> Promise.state Z * World :=
  performTransaction (snap_ref storeName) readwrite (store_add item).

Definition getAll (storeName : snap_store_name)
    : World -> Promise.state (list (Z * snapshot)) * World :=
  performTransaction (snap_ref storeName) readonly store_getAll.

Definition add_inline (storeName : kv_store_name) (item : string * string)
    : World -> Promise.state string * World :=
  performTransaction (kv_ref storeName) readwrite (store_add_inline item).

Definition update_inline (storeName : kv_store_name) (item : string * string)
    : World -> Promise.state string * World :=
  performTransaction (kv_ref storeName) readwrite (store_put_inline item).

Definition remove_inline (storeName : kv_store_name) (key : string)
    : World -> Promise.state unit * World :=
  performTransaction (kv_ref storeName) readwrite (store_delete_inline key).

Definition get_inline (storeName : kv_store_name) (key : string)
    : World -> Promise.state (option string) * World :=
  performTransaction (kv_ref storeName) readonly (store_get_inline key).

(** *** bulkAdd (db.js 114-141)

    [items.map] runs the executor of one promise per item.  The
    executor calls [store.add(item)], which throws for an item without
    a valid key: the promise of that item is rejected with the
    [DataError] at once and no request is placed for it.  An item with a
    key places one add request.  [mapped] gives the promises as
    [items.map] returns them, [placed] the requests in the order they
    were placed. *)
Definition mapped (items : list (option string * string))
    : list (Promise.state unit) :=
  (fun item : option string * string =>
     match item.1 with
     | Some _ => Pending
     | None => Rejected DataError
     end) <$> items.

Definition placed (items : list (option string * string))
    : list (string * string) :=
  omap (fun item : option string * string =>
          key ← item.1; Some (key, item.2)) items.

(** The platform then runs the requests in order: a success resolves
    the item's promise; the first error rejects it and, not being
    handled, aborts the transaction, so every later request fails with
    [AbortError].  The second component is the store to commit, or
    [None] after an abort. *)
Fixpoint run_adds (work : gmap string string) (items : list (string * string))
    : list (Promise.state unit) * option (gmap string string) :=
  match items with
  | [] => ([], Some work)
  | item :: rest =>
      match store_add_inline item work with
      | (ReqSuccess _, work') =>
          let '(ps, r) := run_adds work' rest in (Fulfilled () :: ps, r)
      | (ReqError e, _) =>
          (Rejected e :: ((fun _ => Rejected AbortError) <$> rest), None)
      end
  end.

(** [Promise.all]: rejected by the first rejection, fulfilled when every
    member is. *)
Fixpoint Promise_all (ps : list (Promise.state unit)) : Promise.state unit :=
  match ps with
  | [] => Fulfilled ()
  | Rejected e :: _ => Rejected e
  | Fulfilled _ :: rest => Promise_all rest
  | Pending :: rest =>
      match Promise_all rest with
      | Rejected e => Rejected e
      | _ => Pending
      end
  end.

(** [Promise.all(promises).then(() => resolve()).catch(err => reject(err))]
    acting on the promise [p] of the call, for the members of [promises]
    settled so far. *)
Definition on_all (promises : list (Promise.state unit))
    (p : Promise.state unit) : Promise.state unit :=
  match Promise_all promises with
  | Fulfilled _ => Promise.resolve () p
  | Rejected e => Promise.reject e p
  | Pending => p
  end.

Definition bulkAdd (storeName : kv_store_name)
    (items : list (option string * string))
    (w : World) : Promise.state unit * World :=
  let '(p, w1) := getDB w in
  match await p w1 with
  | Pending => (Pending, w1)
  | Rejected e => (Rejected e, w1)
  | Fulfilled _ =>
      (* the promises rejected by a throw are seen first *)
      let thrown := on_all (mapped items) Pending in
      let '(promises, outcome) :=
        run_adds (kv_store storeName (disk w1)) (placed items) in
      let settled := on_all promises thrown in
      match outcome with
      | Some work =>
          (* transaction.oncomplete *)
          (Promise.resolve () settled,
           set_disk (set_kv_store storeName work (disk w1)) w1)
      | None =>
          (* transaction.onerror, with the error of the failed request *)
          (match Promise_all promises with
           | Rejected e => Promise.reject e settled
           | _ => settled
           end, w1)
      end
  end.

(** ** The timestamp index and its cursor

    An index entry pairs the indexed value with the primary key of its
    record; entries are ordered by value, then by primary key.  A cursor
    opened with direction ['prev'] walks the entries from the greatest
    to the least; [continue()] moves to the first entry strictly beyond
    the cursor's position in the store as it is at that moment. *)

Definition ikey : Type := Z * Z.

Definition ikey_ltb (a b : ikey) : bool :=
  (a.1 <? b.1) || ((a.1 =? b.1) && (a.2 <? b.2)).

Definition ikey_leb (a b : ikey) : bool :=
  (a.1 <? b.1) || ((a.1 =? b.1) && (a.2 <=? b.2)).

Definition prev_order (a b : ikey) : Prop := ikey_leb b a = true.

Global Instance prev_order_dec : RelDecision prev_order.
Proof. intros a b. unfold prev_order. apply _. Defined.

(** A record has an entry in the index when its [timestamp] is a valid
    key. *)
Definition index_entry (kv : Z * snapshot) : option ikey :=
  t ← timestamp kv.2; Some (t, kv.1).

Definition index_prev (m : gmap Z snapshot) : list ikey :=
  merge_sort prev_order (omap index_entry (map_to_list m)).

Definition beyond (pos : option ikey) (e : ikey) : Prop :=
  match pos with
  | None => True
  | Some p => ikey_ltb e p = true
  end.

Global Instance beyond_dec pos e : Decision (beyond pos e).
Proof. destruct pos; simpl; apply _. Defined.

Definition cursor_at (m : gmap Z snapshot) (pos : option ikey) : option ikey :=
  head (filter (beyond pos) (index_prev m)).

(** ** The eviction pass of saveState / saveParking (db.js 174-201,
    227-245)

    State of the pass: the committed store, the store as the open
    readwrite transaction sees it, the requests placed and not yet run,
    the transaction's status, the closure variable [count], the promise
    returned to the caller, and the cursor values delivered so far. *)

Inductive request : Type :=
| OpenCursor                 (* index.openCursor(null, 'prev') *)
| Continue (pos : ikey)      (* cursor.continue() *)
| Delete (pk : Z).           (* store.delete(cursor.primaryKey) *)

Inductive txn_status : Type := Active | Committed | Aborted.

Record trim : Type := MkTrim {
  durable : gmap Z snapshot;
  work : gmap Z snapshot;
  queue : list request;
  status : txn_status;
  count : Z;
  promise : Promise.state unit;
  visited : list ikey
}.

(** [cursorRequest.onsuccess] *)
Definition cursorRequest_onsuccess (limit : Z) (cursor : option ikey)
    (st : trim) : trim :=
  match cursor with
  | Some c =>
      let count' := count st + 1 in
      let deletes := if bool_decide (count' > limit) then [Delete c.2] else [] in
      MkTrim (durable st) (work st) (queue st ++ deletes ++ [Continue c])
             (status st) count' (promise st) (visited st ++ [c])
  | None =>
      MkTrim (durable st) (work st) (queue st) (status st) (count st)
             (Promise.resolve () (promise st)) (visited st)
  end.

(** [cursorRequest.onerror] and [transaction.onerror] *)
Definition cursorRequest_onerror (e : error) (st : trim) : trim :=
  MkTrim (durable st) (work st) (queue st) (status st) (count st)
         (Promise.reject e (promise st)) (visited st).

Definition transaction_onerror (e : error) (st : trim) : trim :=
  MkTrim (durable st) (work st) (queue st) (status st) (count st)
         (Promise.reject e (promise st)) (visited st).

(** [transaction.oncomplete] *)
Definition transaction_oncomplete (st : trim) : trim :=
  MkTrim (durable st) (work st) (queue st) (status st) (count st)
         (Promise.resolve () (promise st)) (visited st).

Definition pop_request (q : list request) (st : trim) : trim :=
  MkTrim (durable st) (work st) q (status st) (count st) (promise st)
         (visited st).

(** One turn of the platform on an active transaction: run the oldest
    request and fire its event, or, with nothing left to run, commit.
    [fault] makes the request at the head of the queue fail: its error
    event reaches [cursorRequest.onerror], bubbles to
    [transaction.onerror], and the transaction aborts. *)
Definition step (limit : Z) (fault : option error) (st : trim) : trim :=
  match status st with
  | Active =>
      match queue st, fault with
      | [], _ =>
          transaction_oncomplete
            (MkTrim (work st) (work st) [] Committed (count st) (promise st)
                    (visited st))
      | Delete pk :: q, None =>
          MkTrim (durable st) (delete pk (work st)) q (status st) (count st)
                 (promise st) (visited st)
      | OpenCursor :: q, None =>
          cursorRequest_onsuccess limit (cursor_at (work st) None)
            (pop_request q st)
      | Continue pos :: q, None =>
          cursorRequest_onsuccess limit (cursor_at (work st) (Some pos))
            (pop_request q st)
      | Delete _ :: _, Some e =>
          let st' := transaction_onerror e st in
          MkTrim (durable st) (durable st) [] Aborted (count st') (promise st')
                 (visited st')
      | _ :: _, Some e =>
          let st' := transaction_onerror e (cursorRequest_onerror e st) in
          MkTrim (durable st) (durable st) [] Aborted (count st') (promise st')
                 (visited st')
      end
  | _ => st
  end.

Fixpoint run (limit : Z) (fuel : nat) (st : trim) : trim :=
  match fuel with
  | O => st
  | S fuel' => run limit fuel' (step limit None st)
  end.

(** The pass as [new Promise(...)] sets it up: the cursor request is
    placed, [count = 0], nothing delivered yet. *)
Definition start_trim (m : gmap Z snapshot) : trim :=
  MkTrim m m [OpenCursor] Active 0 Pending [].

(** Each record costs at most a cursor event and a delete; then come the
    end-of-cursor event and the commit. *)
Definition trim_fuel (m : gmap Z snapshot) : nat := (2 * size m + 2)%nat.

(** ** saveState / saveParking (db.js 160-202, 213-246)

    The two functions differ in the store, the payload field and the
    default limit only.  [now] is the value of [Date.now()].  The world
    returned is the one any later transaction on the store observes:
    such a transaction starts after the eviction transaction finished. *)
Definition saveSnapshot (storeName : snap_store_name) (data name : string)
    (limit : Z) (now : Z) (w : World) : Promise.state unit * World :=
  match add storeName (Snapshot name data now) w with
  | (Fulfilled _, w1) =>
      let '(p, w2) := getDB w1 in
      match await p w2 with
      | Fulfilled _ =>
          let s := snap_store storeName (disk w2) in
          let st := run limit (trim_fuel (records s)) (start_trim (records s)) in
          (promise st,
           set_disk (set_snap_store storeName
                       (MkAutoStore (durable st) (keyGen s)) (disk w2)) w2)
      | Pending => (Pending, w2)
      | Rejected e => (Rejected e, w2)
      end
  | (Pending, w1) => (Pending, w1)
  | (Rejected e, w1) => (Rejected e, w1)
  end.

Definition saveState (state name : string) (limit : option Z)
    : Z -> World -> Promise.state unit * World :=
  saveSnapshot STORE_SAVED_STATES state name (default 5 limit).

Definition saveParking (parkingData name : string) (limit : option Z)
    : Z -> World -> Promise.state unit * World :=
  saveSnapshot STORE_SAVED_PARKING parkingData name (default 20 limit).

(** ** getAllSavedStates / getAllSavedParking (db.js 207-210, 255-258) *)

(** [Array.prototype.sort] with a comparison function: a stable sort
    that puts [a] before [b] when [compare a b < 0].  A comparison that
    yields [NaN] counts as 0.  When the comparison function is not
    consistent on the array the standard leaves the order of the result
    to the engine: the function below then gives one possible order. *)
Fixpoint sort_insert {A} (compare : A -> A -> Z) (x : A) (l : list A) : list A :=
  match l with
  | [] => [x]
  | y :: l' =>
      if compare x y <=? 0 then x :: y :: l'
      else y :: sort_insert compare x l'
  end.

Fixpoint js_sort {A} (compare : A -> A -> Z) (l : list A) : list A :=
  match l with
  | [] => []
  | x :: l' => sort_insert compare x (js_sort compare l')
  end.

(** [(a, b) => b.timestamp - a.timestamp]; the difference is [NaN] when
    one of the two is not a number. *)
Definition newest_first (a b : Z * snapshot) : Z :=
  match timestamp b.2, timestamp a.2 with
  | Some tb, Some ta => tb - ta
  | _, _ => 0
  end.

Definition getAllSaved (storeName : snap_store_name) (w : World)
    : Promise.state (list (Z * snapshot)) * World :=
  match getAll storeName w with
  | (Fulfilled states, w') => (Fulfilled (js_sort newest_first states), w')
  | (Pending, w') => (Pending, w')
  | (Rejected e, w') => (Rejected e, w')
  end.

Definition getAllSavedStates : World -> _ := getAllSaved STORE_SAVED_STATES.
Definition getAllSavedParking : World -> _ := getAllSaved STORE_SAVED_PARKING.

(** A world whose memoized open has succeeded. *)
Definition connected (w : World) : Prop :=
  exists p, dbPromise w = Some p /\ heap w !! p = Some (Fulfilled ()).

Definition open_world (d : Database) : World :=
  MkWorld (Some 0%nat) [Fulfilled ()] 1%nat d.

Definition store_of_list (l : list snapshot) : AutoStore :=
  foldl (fun s item => (store_add item s).2) empty_store l.

(** ** The rest of the CRUD layer of db.js *)

(** String keys are ordered by their UTF-16 code units.  [code_units]
    reads the code units off the UTF-8 bytes of a string: a lead byte
    announces one, two or three continuation bytes of six bits each, and
    a code point above U+FFFF becomes a pair of surrogates. *)
Definition byte_value (c : ascii) : Z := Z.of_N (N_of_ascii c).

Definition units_of (cp : Z) : list Z :=
  if cp <? 65536 then [cp]
  else [55296 + Z.shiftr (cp - 65536) 10; 56320 + Z.land (cp - 65536) 1023].

Fixpoint code_units_from (pending : Z) (more : nat) (s : string) : list Z :=
  match s with
  | EmptyString => []
  | String b rest =>
      let v := byte_value b in
      match more with
      | S more' =>
          let cp := pending * 64 + Z.land v 63 in
          match more' with
          | O => units_of cp ++ code_units_from 0 0 rest
          | S _ => code_units_from cp more' rest
          end
      | O =>
          if v <? 128 then v :: code_units_from 0 0 rest
          else if v <? 224 then code_units_from (Z.land v 31) 1 rest
          else if v <? 240 then code_units_from (Z.land v 15) 2 rest
          else code_units_from (Z.land v 7) 3 rest
      end
  end.

Definition code_units : string -> list Z := code_units_from 0 0.

Fixpoint units_leb (a b : list Z) : bool :=
  match a, b with
  | [], _ => true
  | _ :: _, [] => false
  | x :: a', y :: b' => (x <? y) || ((x =? y) && units_leb a' b')
  end.

(** [store.getAll()] on a store with an in-line string key: every
    record, in ascending order of key. *)
Definition by_string_key (a b : string * string) : Prop :=
  units_leb (code_units a.1) (code_units b.1) = true.

Global Instance by_string_key_dec : RelDecision by_string_key.
Proof. intros a b. unfold by_string_key. apply _. Defined.

Definition store_getAll_inline (m : gmap string string)
    : request_result (list (string * string)) * gmap string string :=
  (ReqSuccess (merge_sort by_string_key (map_to_list m)), m).

(** [store.clear()]: on an auto-increment store the key generator keeps
    its value. *)
Definition store_clear_inline (m : gmap string string)
    : request_result unit * gmap string string :=
  (ReqSuccess (), ∅).

Definition store_clear (s : AutoStore) : request_result unit * AutoStore :=
  (ReqSuccess (), MkAutoStore ∅ (keyGen s)).

(** A record written with an explicit key at or above the key generator
    moves the generator past that key, and never further than one past
    [MAX_GENERATED_KEY]. *)
Definition bump (key : Z) (gen : Z) : Z :=
  let value := Z.min key MAX_GENERATED_KEY in
  if bool_decide (gen <= value) then value + 1 else gen.

(** [store.add(item)] and [store.put(item)] on an auto-increment store,
    for an item that may carry its [id] (an imported or edited record). *)
Definition store_add_keyed (id : option Z) (item : snapshot) (s : AutoStore)
    : request_result Z * AutoStore :=
  match id with
  | None => store_add item s
  | Some k =>
      match records s !! k with
      | Some _ => (ReqError ConstraintError, s)
      | None =>
          (ReqSuccess k,
           MkAutoStore (<[k := item]> (records s)) (bump k (keyGen s)))
      end
  end.

Definition store_put (id : option Z) (item : snapshot) (s : AutoStore)
    : request_result Z * AutoStore :=
  match id with
  | None =>
      if bool_decide (keyGen s > MAX_GENERATED_KEY) then
        (ReqError ConstraintError, s)
      else
        (ReqSuccess (keyGen s),
         MkAutoStore (<[keyGen s := item]> (records s)) (keyGen s + 1))
  | Some k =>
      (ReqSuccess k,
       MkAutoStore (<[k := item]> (records s)) (bump k (keyGen s)))
  end.

Definition store_get (key : Z) (s : AutoStore)
    : request_result (option snapshot) * AutoStore :=
  (ReqSuccess (records s !! key), s).

Definition store_delete (key : Z) (s : AutoStore)
    : request_result unit * AutoStore :=
  (ReqSuccess (), MkAutoStore (delete key (records s)) (keyGen s)).

(** [getAll], [get], [update], [remove], [clearStore] (db.js 96-113). *)
Definition getAll_inline (storeName : kv_store_name)
    : World -> Promise.state (list (string * string)) * World :=
  performTransaction (kv_ref storeName) readonly store_getAll_inline.

Definition clearStore_inline (storeName : kv_store_name)
    : World -> Promise.state unit * World :=
  performTransaction (kv_ref storeName) readwrite store_clear_inline.

Definition clearStore (storeName : snap_store_name)
    : World -> Promise.state unit * World :=
  performTransaction (snap_ref storeName) readwrite store_clear.

Definition add_keyed (storeName : snap_store_name) (id : option Z)
    (item : snapshot) : World -> Promise.state Z * World :=
  performTransaction (snap_ref storeName) readwrite (store_add_keyed id item).

Definition update (storeName : snap_store_name) (id : option Z)
    (item : snapshot) : World -> Promise.state Z * World :=
  performTransaction (snap_ref storeName) readwrite (store_put id item).

Definition get (storeName : snap_store_name) (key : Z)
    : World -> Promise.state (option snapshot) * World :=
  performTransaction (snap_ref storeName) readonly (store_get key).

Definition remove (storeName : snap_store_name) (key : Z)
    : World -> Promise.state unit * World :=
  performTransaction (snap_ref storeName) readwrite (store_delete key).

(** The exported wrappers (db.js 144-157, 204-205, 249-253). *)
Definition getAllFamilies := getAll_inline STORE_FAMILIES.
Definition getFamily := get_inline STORE_FAMILIES.
Definition addFamily := add_inline STORE_FAMILIES.
Definition updateFamily := update_inline STORE_FAMILIES.
Definition deleteFamily := remove_inline STORE_FAMILIES.
Definition bulkAddFamilies := bulkAdd STORE_FAMILIES.
Definition getAllCars := getAll_inline STORE_CARS.
Definition getCar := get_inline STORE_CARS.
Definition addCar := add_inline STORE_CARS.
Definition updateCar := update_inline STORE_CARS.
Definition deleteCar := remove_inline STORE_CARS.
Definition bulkAddCars := bulkAdd STORE_CARS.
Definition getState := get STORE_SAVED_STATES.
Definition deleteState := remove STORE_SAVED_STATES.
Definition getParking := get STORE_SAVED_PARKING.
Definition deleteParking := remove STORE_SAVED_PARKING.
Definition updateParking := update STORE_SAVED_PARKING.

(** ** The schema upgrade (db.js 30-58, request.onupgradeneeded)

    The database as the upgrade sees it: the declared object stores by
    name. *)
Record index_decl : Type := IndexDecl {
  index_name : string;
  index_keyPath : string;
  unique : bool
}.

Record store_decl : Type := StoreDecl {
  keyPath : string;
  autoIncrement : bool;
  indexes : list index_decl
}.

Definition families_decl : store_decl := StoreDecl "familyName" false [].
Definition cars_decl : store_decl := StoreDecl "id" false [].
Definition savedStates_decl : store_decl :=
  StoreDecl "id" true [IndexDecl "timestamp" "timestamp" false].
Definition savedParking_decl : store_decl :=
  StoreDecl "id" true
    [IndexDecl "timestamp" "timestamp" false; IndexDecl "name" "name" false].

(** [if (!db.objectStoreNames.contains(n)) db.createObjectStore(n, ...)],
    with the [createIndex] calls that follow the creation. *)
Definition create_if_missing (n : string) (d : store_decl)
    (db : gmap string store_decl) : gmap string store_decl :=
  match db !! n with
  | Some _ => db
  | None => <[n := d]> db
  end.

Definition onupgradeneeded (db : gmap string store_decl)
    : gmap string store_decl :=
  create_if_missing "savedParking" savedParking_decl
    (create_if_missing "savedStates" savedStates_decl
       (create_if_missing "cars" cars_decl
          (create_if_missing "families" families_decl db))).

(** What the upgrade declares for a store name. *)
Definition declared (n : string) : option store_decl :=
  if bool_decide (n = "families") then Some families_decl
  else if bool_decide (n = "cars") then Some cars_decl
  else if bool_decide (n = "savedStates") then Some savedStates_decl
  else if bool_decide (n = "savedParking") then Some savedParking_decl
  else None.

Definition store_names : list string :=
  ["families"; "cars"; "savedStates"; "savedParking"].

(** * sw.js: the offline cache controller *)

Module Sw.

Definition CACHE_NAME : string := "car-app-cache-v1".

Definition urlsToCache : list string :=
  [ "./"; "./index.html"; "./master.html"; "./manual.html"; "./db.js";
    "./manifest.json"; "./icons/icon-192x192.png";
    "./icons/icon-512x512.png"; "https://cdn.tailwindcss.com/" ].

(** The literal used by both tests on Tailwind requests. *)
Definition TAILWIND : string := "https://cdn.tailwindcss.com".

Inductive response_type : Type :=
| basic | cors | opaque | opaqueredirect | error_response.

Global Instance response_type_eq_dec : EqDecision response_type.
Proof. solve_decision. Defined.

Record response : Type := Response {
  status : Z;
  type : response_type;
  body : string
}.

(** A cache bucket maps request URLs to responses; [caches] lists the
    buckets by name, in the order they were created. *)
Abbreviation bucket := (gmap string response).
Definition CacheStorage : Type := list (string * bucket).

Record State : Type := MkState {
  caches : CacheStorage;
  console : list string
}.

(** What the platform answers: the network, whether the Cache API
    accepts the operations, and the URL that ['./'] resolves to, which
    is the directory of the worker's script ([self.location]). *)
Record Platform : Type := MkPlatform {
  fetch : string -> option response;   (* None: the fetch promise rejects *)
  open_ok : bool;                      (* caches.open succeeds *)
  put_ok : bool;                       (* the cache accepts writes *)
  base : string                        (* './' resolved, with its final '/' *)
}.

Definition async (A : Type) : Type := State -> Promise.state A * State.

Definition then_ {A B} (p : async A) (f : A -> async B) : async B :=
  fun s =>
    match p s with
    | (Fulfilled a, s') => f a s'
    | (Rejected e, s') => (Rejected e, s')
    | (Pending, s') => (Pending, s')
    end.

Definition catch_ {A} (p : async A) (h : error -> async A) : async A :=
  fun s =>
    match p s with
    | (Rejected e, s') => h e s'
    | r => r
    end.

Definition lookup_bucket (n : string) (cs : CacheStorage) : option bucket :=
  snd <$> List.find (fun nb => bool_decide (nb.1 = n)) cs.

Fixpoint update_bucket (n : string) (f : bucket -> bucket) (cs : CacheStorage)
    : CacheStorage :=
  match cs with
  | [] => []
  | (n', b) :: cs' =>
      if bool_decide (n' = n) then (n', f b) :: cs'
      else (n', b) :: update_bucket n f cs'
  end.

(** [caches.open(name)]: the bucket is created when it does not exist;
    the promise yields the bucket's name as the handle. *)
Definition caches_open (pf : Platform) (n : string) : async string :=
  fun s =>
    if open_ok pf then
      match lookup_bucket n (caches s) with
      | Some _ => (Fulfilled n, s)
      | None => (Fulfilled n, MkState (caches s ++ [(n, ∅)]) (console s))
      end
    else (Rejected CacheOpenError, s).

(** [new Request(url)] resolves [url] against the location of the
    worker.  The manifest has entries of two forms: relative to the
    directory of the script (['./...']), and absolute. *)
Definition resolve (dir url : string) : string :=
  match url with
  | String "."%char (String "/"%char rest) => dir ++ rest
  | _ => url
  end.

(** [cache.addAll(urls)]: build a request for every URL and fetch it;
    unless every fetch succeeds with a status [cache.addAll] accepts (an
    ok status other than 206, partial content), no two requests are for
    the same URL and the cache accepts the writes, reject and store
    nothing.  The responses are stored under the URLs of the
    requests. *)
Definition ok (r : response) : bool :=
  bool_decide (200 <= status r) && bool_decide (status r <= 299)
  && bool_decide (status r <> 206).

Fixpoint fetch_all (pf : Platform) (urls : list string)
    : error + list (string * response) :=
  match urls with
  | [] => inr []
  | u :: rest =>
      match fetch pf u with
      | Some r =>
          if ok r then
            match fetch_all pf rest with
            | inr l => inr ((u, r) :: l)
            | inl e => inl e
            end
          else inl (NetworkError u)
      | None => inl (NetworkError u)
      end
  end.

Definition put_all (l : list (string * response)) (b : bucket) : bucket :=
  foldl (fun b ur => <[ur.1 := ur.2]> b) b l.

Definition cache_addAll (pf : Platform) (cache : string) (urls : list string)
    : async unit :=
  fun s =>
    let requests := resolve (base pf) <$> urls in
    match fetch_all pf requests with
    | inr l =>
        if bool_decide (NoDup requests) then
          if put_ok pf then
            (Fulfilled (),
             MkState (update_bucket cache (put_all l) (caches s)) (console s))
          else (Rejected QuotaExceededError, s)
        else (Rejected InvalidStateError, s)
    | inl e => (Rejected e, s)
    end.

Definition console_log {A} (line : string) (a : A) : async A :=
  fun s => (Fulfilled a, MkState (caches s) (console s ++ [line])).

(** The promise handed to [event.waitUntil] by the install listener
    (lines 314-328): installation succeeds exactly when it is
    fulfilled. *)
Definition install (pf : Platform) : async unit :=
  then_ (console_log "[ServiceWorker] Install" ())
    (fun _ =>
       catch_
         (then_ (caches_open pf CACHE_NAME)
            (fun cache =>
               then_ (console_log "[ServiceWorker] Caching app shell" ())
                 (fun _ => cache_addAll pf cache urlsToCache)))
         (fun err => console_log "[ServiceWorker] Cache addAll failed:" ())).

(** [caches.match(request)]: the first bucket that holds the URL. *)
Fixpoint caches_match (url : string) (cs : CacheStorage) : option response :=
  match cs with
  | [] => None
  | (_, b) :: cs' =>
      match b !! url with
      | Some r => Some r
      | None => caches_match url cs'
      end
  end.

(** [cache.put(request, response)] on the current bucket, as started by
    [caches.open(CACHE_NAME).then(...)]; its promise is not awaited. *)
Definition cache_put (pf : Platform) (url : string) (r : response) (s : State)
    : State :=
  match caches_open pf CACHE_NAME s with
  | (Fulfilled cache, s') =>
      if put_ok pf then
        MkState (update_bucket cache (<[url := r]>) (caches s')) (console s')
      else s'
  | (_, s') => s'
  end.

Definition startsWith (s prefix : string) : bool := String.prefix prefix s.

(** What the fetch listener does with a request: it returns without
    calling [respondWith], or it answers with the settled value of the
    promise it built ([None] stands for [undefined]). *)
Inductive fetch_result : Type :=
| NotIntercepted
| RespondWith (r : option response).

(** The callback given to [fetch(event.request).then]. *)
Definition on_fetched (pf : Platform) (url : string) (r : response)
    : async (option response) :=
  fun s =>
    if bool_decide (status r ≠ 200) || bool_decide (type r ≠ basic) then
      if startsWith url TAILWIND && bool_decide (type r = opaque) then
        (Fulfilled (Some r), cache_put pf url r s)
      else (Fulfilled (Some r), s)
    else (Fulfilled (Some r), cache_put pf url r s).

(** The callback given to [.catch]. *)
Definition on_fetch_failed (url : string) (err : error)
    : async (option response) :=
  then_ (console_log "[ServiceWorker] Network request failed. Trying cache:" ())
    (fun _ s =>
       match caches_match url (caches s) with
       | Some cached =>
           console_log "[ServiceWorker] Found in cache:" (Some cached) s
       | None => console_log "[ServiceWorker] Not found in cache:" None s
       end).

Definition network (pf : Platform) (url : string) : async response :=
  fun s =>
    match fetch pf url with
    | Some r => (Fulfilled r, s)
    | None => (Rejected (NetworkError url), s)
    end.

(** The fetch listener (lines 351-409); [origin] is
    [self.location.origin] and [url] is [event.request.url]. *)
Definition fetch_listener (pf : Platform) (origin : string) (url : string)
    (s : State) : fetch_result * State :=
  if negb (startsWith url origin) && negb (startsWith url TAILWIND) then
    (NotIntercepted, s)
  else
    match catch_ (then_ (network pf url) (on_fetched pf url))
                 (on_fetch_failed url) s with
    | (Fulfilled r, s') => (RespondWith r, s')
    | (_, s') => (RespondWith None, s')
    end.

(** An absolute URL, its serialisation ([request.url]) and its origin. *)
Record URL : Type := MkURL {
  scheme : string;
  host : string;
  path : string
}.

Definition origin_of (u : URL) : string := scheme u ++ "://" ++ host u.
Definition href (u : URL) : string := origin_of u ++ path u.

(** [caches.keys()] and [caches.delete(name)]. *)
Definition caches_keys (cs : CacheStorage) : list string := cs.*1.

Definition caches_delete (n : string) (cs : CacheStorage) : CacheStorage :=
  filter (fun nb : string * bucket => nb.1 <> n) cs.

(** The callback mapped over the cache names by the activate listener. *)
Definition clear_old (s : State) (cacheName : string) : State :=
  if bool_decide (cacheName <> CACHE_NAME) then
    MkState (caches_delete cacheName (caches s))
            (console s ++ ["[ServiceWorker] Clearing old cache:"; cacheName])
  else s.

(** The promise handed to [event.waitUntil] by the activate listener
    (lines 331-348).  The listener then calls [self.clients.claim()],
    which does not touch the caches. *)
Definition activate : async unit :=
  then_ (console_log "[ServiceWorker] Activate" ())
    (fun _ s => (Fulfilled (), foldl clear_old s (caches_keys (caches s)))).

(** The response stored for [url] in the bucket named [n], if any. *)
Definition stored (n url : string) (s : State) : option response :=
  lookup_bucket n (caches s) ≫= (fun b : bucket => b !! url).

End Sw.

(** * Reference definitions used by the statements *)

(** A run of the page against the connection manager: calls of [getDB]
    interleaved with events of open requests. *)
Inductive action : Type :=
| CallGetDB
| OpenEvent (p : nat) (ev : open_event).

Fixpoint run_actions (acts : list action) (w : World) : list nat * World :=
  match acts with
  | [] => ([], w)
  | CallGetDB :: rest =>
      let '(p, w1) := getDB w in
      let '(ps, w2) := run_actions rest w1 in
      (p :: ps, w2)
  | OpenEvent p ev :: rest => run_actions rest (deliver_open p ev w)
  end.

(** The eviction rule in the words of the design: walk the timestamp
    index newest first and delete every record beyond the [limit]-th. *)
Definition delete_entries (l : list ikey) (m : gmap Z snapshot)
    : gmap Z snapshot :=
  foldr (fun e w => delete e.2 w) m l.

Definition keep_newest (limit : Z) (m : gmap Z snapshot) : gmap Z snapshot :=
  delete_entries (drop (Z.to_nat limit) (index_prev m)) m.

(** The same walk with the running [count] made explicit, and the number
    of platform turns it takes up to the end-of-cursor event. *)
Fixpoint evict (limit : Z) (count : Z) (rest : list ikey)
    (w : gmap Z snapshot) : gmap Z snapshot :=
  match rest with
  | [] => w
  | e :: rest' =>
      evict limit (count + 1) rest'
        (if bool_decide (count + 1 > limit) then delete e.2 w else w)
  end.

Fixpoint evict_turns (limit : Z) (count : Z) (rest : list ikey) : nat :=
  match rest with
  | [] => 1%nat
  | e :: rest' =>
      ((if bool_decide (count + 1 > limit)%Z then 2 else 1)
       + evict_turns limit (count + 1)%Z rest')%nat
  end.

(** The request that makes the cursor report its next value from
    position [pos]. *)
Definition cursor_request (pos : option ikey) : request :=
  match pos with
  | None => OpenCursor
  | Some p => Continue p
  end.






(** The reading of "resolves only after the transaction completed" on
    the eviction pass: at every turn, a fulfilled promise means a
    committed transaction. *)
Definition resolves_only_after_commit (limit : Z) (m : gmap Z snapshot)
    : Prop :=
  forall turns,
    promise (run limit turns (start_trim m)) = Fulfilled () ->
    status (run limit turns (start_trim m)) = Committed.

(** The reading of "bulkAdd is all-or-nothing, whichever add fails": a
    call that rejects leaves the store as it was. *)
Definition rolls_back (storeName : kv_store_name)
    (items : list (option string * string)) (w : World) : Prop :=
  forall e, (bulkAdd storeName items w).1 = Rejected e ->
    kv_store storeName (disk (bulkAdd storeName items w).2)
    = kv_store storeName (disk w).

(** The key generator of an auto-increment store stays above the keys
    in use, as far as it can go: a key beyond [MAX_GENERATED_KEY] leaves
    the generator used up. *)
Definition keys_below (s : AutoStore) : Prop :=
  forall k, is_Some (records s !! k) ->
    Z.min k MAX_GENERATED_KEY < keyGen s.

(** Every record of the collection has an entry in the timestamp index. *)
Definition indexed (m : gmap Z snapshot) : Prop :=
  forall k r, m !! k = Some r -> is_Some (timestamp r).

(** Two snapshots saved one after the other. *)
Definition two_saves : gmap Z snapshot :=
  records (store_of_list [Snapshot "first" "" 10; Snapshot "second" "" 20]).

(** Scenarios for the cache controller: a network on which every fetch
    fails, and a network that answers every request opaquely. *)
Definition offline : Sw.Platform :=
  Sw.MkPlatform (fun _ => None) true true "https://app.example/".

Definition opaque_reply : Sw.response := Sw.Response 0 Sw.opaque "body".

Definition opaque_network : Sw.Platform :=
  Sw.MkPlatform (fun _ => Some opaque_reply) true true "https://app.example/".

Definition app_origin : string := "https://app.example".

Definition lookalike : Sw.URL :=
  Sw.MkURL "https" "cdn.tailwindcss.com.evil.example" "/x.js".

(** The reading of "a manifest entry that cannot be fetched fails the
    install step". *)
Definition install_all_or_nothing (pf : Sw.Platform) (s : Sw.State) : Prop :=
  (exists u, u ∈ Sw.urlsToCache
             /\ Sw.fetch pf (Sw.resolve (Sw.base pf) u) = None) ->
  exists e, (Sw.install pf s).1 = Rejected e.

(** The order of the list returned by getAllSaved: no record is followed
    by a newer one; and the strict order, in which no record is followed
    by one of the same age either.  Both compare the records that have a
    timestamp. *)
Definition newer_or_same (a b : Z * snapshot) : Prop :=
  match timestamp a.2, timestamp b.2 with
  | Some ta, Some tb => tb <= ta
  | _, _ => True
  end.

Definition strictly_newer (a b : Z * snapshot) : Prop :=
  match timestamp a.2, timestamp b.2 with
  | Some ta, Some tb => tb < ta
  | _, _ => True
  end.

(** Operations on a snapshot store by one caller, one after the other. *)
Inductive snap_op : Type :=
| OpAdd (id : option Z) (item : snapshot)
| OpUpdate (id : option Z) (item : snapshot)
| OpRemove (key : Z)
| OpClear
| OpSave (data name : string) (limit : Z) (now : Z).

Definition do_op (n : snap_store_name) (op : snap_op) (w : World) : World :=
  match op with
  | OpAdd id item => (add_keyed n id item w).2
  | OpUpdate id item => (update n id item w).2
  | OpRemove key => (remove n key w).2
  | OpClear => (clearStore n w).2
  | OpSave data name limit now => (saveSnapshot n data name limit now w).2
  end.

Definition run_ops (n : snap_store_name) (ops : list snap_op) (w : World)
    : World :=
  foldl (fun w op => do_op n op w) w ops.

(** The events of one open request, delivered in order. *)
Definition deliver_all (p : nat) (evs : list open_event) (w : World) : World :=
  foldl (fun w ev => deliver_open p ev w) w evs.

(** The two tests of the fetch listener: the requests it answers, and
    the responses it stores. *)
Definition eligible (origin url : string) : Prop :=
  Sw.startsWith url origin = true \/ Sw.startsWith url Sw.TAILWIND = true.

Definition cacheable (url : string) (r : Sw.response) : Prop :=
  (Sw.status r = 200 /\ Sw.type r = Sw.basic)
  \/ (Sw.startsWith url Sw.TAILWIND = true /\ Sw.type r = Sw.opaque).

Global Instance cacheable_dec url r : Decision (cacheable url r).
Proof. unfold cacheable. apply _. Defined.

(** * Connection manager *)

Lemma resolve_settled {A} (a : A) p :
  Promise.settled p = true -> Promise.resolve a p = p.
Proof. by destruct p. Qed.

Lemma reject_settled {A} (e : error) (p : Promise.state A) :
  Promise.settled p = true -> Promise.reject e p = p.
Proof. by destruct p. Qed.

Lemma settle_open_settled ev s :
  Promise.settled s = true -> settle_open ev s = s.
Proof. destruct ev, s; done. Qed.

Lemma getDB_memo w p : dbPromise w = Some p -> getDB w = (p, w).
Proof. unfold getDB. by intros ->. Qed.

Lemma getDB_fresh w :
  dbPromise w = None ->
  getDB w = (length (heap w),
             MkWorld (Some (length (heap w))) (heap w ++ [Pending])
                     (S (opens w)) (disk w)).
Proof. unfold getDB. by intros ->. Qed.

Lemma getDB_sets_memo w : dbPromise (getDB w).2 = Some (getDB w).1.
Proof. unfold getDB. destruct (dbPromise w) eqn:E; simpl; done. Qed.

Lemma run_actions_memo acts : forall w p,
  dbPromise w = Some p ->
  Forall (eq p) (run_actions acts w).1
  /\ opens (run_actions acts w).2 = opens w
  /\ dbPromise (run_actions acts w).2 = Some p.
Proof.
  induction acts as [|a acts IH]; intros w p Hp; simpl.
  - by repeat split.
  - destruct a as [|q ev].
    + rewrite (getDB_memo w p Hp).
      pose proof (IH w p Hp) as H.
      destruct (run_actions acts w) as [ps w2]. simpl in *.
      destruct H as (H1 & H2 & H3). repeat split; auto.
    + destruct (IH (deliver_open q ev w) p Hp) as (H1 & H2 & H3).
      repeat split; auto.
Qed.

Lemma run_actions_keeps_rejection acts : forall w p e,
  heap w !! p = Some (Rejected e) ->
  heap (run_actions acts w).2 !! p = Some (Rejected e).
Proof.
  induction acts as [|a acts IH]; intros w p e Hp; simpl; [done|].
  destruct a as [|q ev].
  - destruct (getDB w) as [p' w1] eqn:E1.
    assert (H : heap w1 !! p = Some (Rejected e)).
    { unfold getDB in E1.
      destruct (dbPromise w); inversion E1; subst; simpl; [done|].
      by apply lookup_app_l_Some. }
    apply IH in H. by destruct (run_actions acts w1) as [ps w2].
  - apply IH. unfold deliver_open; simpl.
    destruct (decide (q = p)) as [->|Hne].
    + rewrite list_lookup_alter_eq, Hp. simpl. f_equal.
      by apply settle_open_settled.
    + by rewrite list_lookup_alter_ne.
Qed.

(** C9. [getDB] memoizes the promise of the open in flight: whatever
    calls of [getDB] and events of open requests follow a first call,
    every call returns the promise the first one returned, and no
    further [indexedDB.open] is issued. A first call on a page without a
    memoized promise issues exactly one open, whose promise is pending. *)
Theorem getDB_memoizes_open (w : World) (acts : list action) :
  let p := (getDB w).1 in
  let w1 := (getDB w).2 in
  Forall (eq p) (run_actions acts w1).1
  /\ opens (run_actions acts w1).2 = opens w1
  /\ dbPromise (run_actions acts w1).2 = Some p
  /\ getDB w1 = (p, w1)
  /\ match dbPromise w with
     | None => opens w1 = S (opens w) /\ await p w1 = Pending
     | Some q => p = q /\ w1 = w
     end.
Proof.
  intros p w1.
  assert (Hm : dbPromise w1 = Some p) by apply getDB_sets_memo.
  destruct (run_actions_memo acts w1 p Hm) as (H1 & H2 & H3).
  repeat split; auto using getDB_memo.
  subst p w1. unfold getDB. destruct (dbPromise w) eqn:E; simpl; [done|].
  split; [done|]. unfold await; simpl.
  by rewrite lookup_app_r, Nat.sub_diag.
Qed.

Lemma await_lookup w p s : heap w !! p = Some s -> await p w = s.
Proof. unfold await. by intros ->. Qed.

Lemma performTransaction_rejected {S A} (r : StoreRef S) mode
    (act : S -> request_result A * S) w p e :
  dbPromise w = Some p -> heap w !! p = Some (Rejected e) ->
  performTransaction r mode act w = (Rejected e, w).
Proof.
  intros Hp He. unfold performTransaction.
  by rewrite (getDB_memo w p Hp), (await_lookup w p _ He).
Qed.

Lemma bulkAdd_rejected n items w p e :
  dbPromise w = Some p -> heap w !! p = Some (Rejected e) ->
  bulkAdd n items w = (Rejected e, w).
Proof.
  intros Hp He. unfold bulkAdd.
  by rewrite (getDB_memo w p Hp), (await_lookup w p _ He).
Qed.

Lemma saveSnapshot_rejected n data nm limit now w p e :
  dbPromise w = Some p -> heap w !! p = Some (Rejected e) ->
  saveSnapshot n data nm limit now w = (Rejected e, w).
Proof.
  intros Hp He. unfold saveSnapshot, add.
  by rewrite (performTransaction_rejected _ _ _ w p e Hp He).
Qed.

Lemma getAllSaved_rejected n w p e :
  dbPromise w = Some p -> heap w !! p = Some (Rejected e) ->
  getAllSaved n w = (Rejected e, w).
Proof.
  intros Hp He. unfold getAllSaved, getAll.
  by rewrite (performTransaction_rejected _ _ _ w p e Hp He).
Qed.

Lemma clearDatabase_forgets del w : dbPromise w <> None ->
  await (default 0%nat (dbPromise w)) w <> Pending ->
  dbPromise (clearDatabase del w).2 = None
  /\ heap (clearDatabase del w).2 = heap w
  /\ opens (clearDatabase del w).2 = opens w.
Proof.
  unfold clearDatabase. destruct (dbPromise w) as [p|]; [|done].
  simpl. intros _ Hs. destruct (await p w); [done| |]; by destruct del.
Qed.

(** C10. A failed open stays memoized. Once the promise held in
    [dbPromise] is rejected with [e], every later call of [getDB]
    returns that same promise, still rejected with [e], and issues no
    new open, whatever events the open requests still deliver; every
    operation that goes through [getDB] rejects with [e] and leaves the
    page as it was. Only [clearDatabase] resets [dbPromise]; the next
    [getDB] then issues a new open with a fresh pending promise. *)
Theorem failed_open_is_memoized (w : World) (p : nat) (e : error) :
  dbPromise w = Some p ->
  heap w !! p = Some (Rejected e) ->
  (forall acts,
     Forall (eq p) (run_actions acts w).1
     /\ opens (run_actions acts w).2 = opens w
     /\ await p (run_actions acts w).2 = Rejected e)
  /\ (forall S A (r : StoreRef S) mode (act : S -> request_result A * S),
        performTransaction r mode act w = (Rejected e, w))
  /\ (forall n items, bulkAdd n items w = (Rejected e, w))
  /\ (forall data nm limit now,
        saveState data nm limit now w = (Rejected e, w)
        /\ saveParking data nm limit now w = (Rejected e, w))
  /\ (forall n, getAllSaved n w = (Rejected e, w))
  /\ (forall del,
        let w' := (clearDatabase del w).2 in
        dbPromise w' = None
        /\ (getDB w').1 <> p
        /\ opens (getDB w').2 = S (opens w)
        /\ await (getDB w').1 (getDB w').2 = Pending).
Proof.
  intros Hp He. split; [|split; [|split; [|split; [|split]]]].
  - intros acts. destruct (run_actions_memo acts w p Hp) as (H1 & H2 & _).
    repeat split; auto.
    apply await_lookup. by apply run_actions_keeps_rejection.
  - intros. by eapply performTransaction_rejected.
  - intros. by eapply bulkAdd_rejected.
  - intros. split; by eapply saveSnapshot_rejected.
  - intros. by eapply getAllSaved_rejected.
  - intros del w'.
    destruct (clearDatabase_forgets del w) as (H1 & H2 & H3).
    { by rewrite Hp. }
    { rewrite Hp. simpl. by rewrite (await_lookup w p _ He). }
    fold w' in H1, H2, H3. rewrite (getDB_fresh w' H1). simpl.
    rewrite H2, H3. repeat split; auto.
    + apply lookup_lt_Some in He. lia.
    + unfold await; simpl. by rewrite lookup_app_r, Nat.sub_diag.
Qed.

Lemma failed_open_is_memoized_witness :
  let w := MkWorld (Some 0%nat) [Rejected OpenBlocked] 1%nat empty_database in
  saveState "s" "n" None 7 w = (Rejected OpenBlocked, w)
  /\ (getDB w).1 = 0%nat
  /\ opens (getDB (clearDatabase delete_onsuccess w).2).2 = 2%nat.
Proof.
  intros w.
  destruct (failed_open_is_memoized w 0%nat OpenBlocked eq_refl eq_refl)
    as (_ & _ & _ & H4 & _ & H6).
  split; [apply (H4 "s" "n" None 7)|].
  split; [reflexivity|].
  destruct (H6 delete_onsuccess) as (_ & _ & H & _). exact H.
Defined.

(** * bulkAdd *)

Lemma connected_getDB w : connected w ->
  exists p, getDB w = (p, w) /\ await p w = Fulfilled ().
Proof.
  intros (p & Hp & Hh). exists p. split; [by apply getDB_memo|].
  by apply await_lookup.
Qed.

Lemma store_add_inline_success item m :
  m !! item.1 = None ->
  store_add_inline item m = (ReqSuccess item.1, <[item.1 := item.2]> m).
Proof. unfold store_add_inline. by intros ->. Qed.

Lemma store_add_inline_collision item m :
  is_Some (m !! item.1) ->
  store_add_inline item m = (ReqError ConstraintError, m).
Proof. unfold store_add_inline. by intros [x ->]. Qed.

(** A run of the add requests aborts exactly when one of the item
    promises is rejected, and then [Promise.all] is rejected too. *)
Lemma run_adds_abort items : forall work,
  (run_adds work items).2 = None <->
  exists e, Rejected e ∈ (run_adds work items).1.
Proof.
  induction items as [|item items IH]; intros work; simpl.
  - split; [done|]. intros [e He]. by apply elem_of_nil in He.
  - unfold store_add_inline. destruct (work !! item.1) eqn:E; simpl.
    + split; [|done]. intros _. exists ConstraintError. by left.
    + specialize (IH (<[item.1:=item.2]> work)).
      destruct (run_adds (<[item.1:=item.2]> work) items) as [ps r].
      simpl in *. rewrite IH. split; intros [e He]; exists e.
      * by right.
      * by apply elem_of_cons in He as [?|?].
Qed.

Lemma run_adds_all_rejected items : forall work,
  (run_adds work items).2 = None ->
  exists e, Promise_all (run_adds work items).1 = Rejected e.
Proof.
  induction items as [|item items IH]; intros work; simpl; [done|].
  unfold store_add_inline. destruct (work !! item.1) eqn:E; simpl.
  - intros _. by exists ConstraintError.
  - specialize (IH (<[item.1:=item.2]> work)).
    destruct (run_adds (<[item.1:=item.2]> work) items) as [ps r].
    simpl in *. done.
Qed.

Lemma run_adds_all_fulfilled items : forall work work',
  (run_adds work items).2 = Some work' ->
  Promise_all (run_adds work items).1 = Fulfilled ()
  /\ (forall item, item ∈ items -> is_Some (work' !! item.1))
  /\ (forall k, k ∉ items.*1 -> work' !! k = work !! k)
  /\ NoDup items.*1
  /\ (forall item, item ∈ items -> work !! item.1 = None /\ work' !! item.1 = Some item.2).
Proof.
  induction items as [|item items IH]; intros work work'; simpl.
  - intros [= <-]. repeat split; try done.
    + intros item H. by apply elem_of_nil in H.
    + constructor.
    + by apply elem_of_nil in H.
    + by apply elem_of_nil in H.
  - unfold store_add_inline. destruct (work !! item.1) eqn:E; simpl; [done|].
    specialize (IH (<[item.1:=item.2]> work) work').
    destruct (run_adds (<[item.1:=item.2]> work) items) as [ps r].
    simpl in *. intros Hr. destruct (IH Hr) as (H1 & H2 & H3 & H4 & H5).
    assert (Hni : item.1 ∉ items.*1).
    { intros Hin. apply list_elem_of_fmap in Hin as (it & Heq & Hit).
      destruct (H5 it Hit) as [Hn _]. rewrite <- Heq in Hn.
      by rewrite lookup_insert_eq in Hn. }
    split; [done|]. split; [|split; [|split]].
    + intros it Hit. apply elem_of_cons in Hit as [->|Hit]; [|by apply H2].
      rewrite (H3 _ Hni), lookup_insert_eq. by eexists.
    + intros k Hk. apply not_elem_of_cons in Hk as [Hk1 Hk2].
      rewrite (H3 k Hk2). by rewrite lookup_insert_ne.
    + by constructor.
    + intros it Hit. apply elem_of_cons in Hit as [->|Hit].
      * split; [done|]. by rewrite (H3 _ Hni), lookup_insert_eq.
      * destruct (H5 it Hit) as [Hn Hs]. split; [|done].
        destruct (decide (item.1 = it.1)) as [Heq|Hne].
        -- rewrite Heq, lookup_insert_eq in Hn. done.
        -- by rewrite lookup_insert_ne in Hn.
Qed.

Lemma run_adds_collision items : forall work item,
  item ∈ items -> is_Some (work !! item.1) ->
  (run_adds work items).2 = None.
Proof.
  induction items as [|it items IH]; intros work item Hin Hs; simpl.
  - by apply elem_of_nil in Hin.
  - unfold store_add_inline. destruct (work !! it.1) eqn:E; simpl; [done|].
    apply elem_of_cons in Hin as [->|Hin].
    { rewrite E in Hs. by destruct Hs. }
    specialize (IH (<[it.1:=it.2]> work) item Hin).
    destruct (run_adds (<[it.1:=it.2]> work) items) as [ps r]. simpl in *.
    apply IH. destruct (decide (it.1 = item.1)) as [->|Hne].
    + rewrite lookup_insert_eq. by eexists.
    + by rewrite lookup_insert_ne.
Qed.

Lemma kv_store_set n m d : kv_store n (set_kv_store n m d) = m.
Proof. by destruct n. Qed.

(** What [Promise.all] makes of the promises [items.map] returns: it is
    rejected at once when an add has thrown. *)
Lemma Promise_all_mapped items :
  Promise_all (mapped items)
  = if bool_decide (Forall (fun item : option string * string =>
                              is_Some item.1) items)
    then match items with [] => Fulfilled () | _ => Pending end
    else Rejected DataError.
Proof.
  induction items as [|[[k|] v] items IH]; [done|..]; cbn.
  - fold (mapped items). rewrite IH.
    destruct (decide (Forall (fun item : option string * string =>
                                is_Some item.1) items)) as [Hall|Hall].
    + rewrite (bool_decide_eq_true_2 _ Hall), bool_decide_eq_true_2.
      * by destruct items.
      * constructor; [by eexists|done].
    + rewrite (bool_decide_eq_false_2 _ Hall), bool_decide_eq_false_2; [done|].
      intros H. apply Forall_cons in H as [_ H]. done.
  - done.
Qed.

Lemma not_all_keyed items :
  ~ Forall (fun item : option string * string => is_Some item.1) items <->
  exists item, item ∈ items /\ item.1 = None.
Proof.
  split.
  - intros H. apply not_Forall_Exists in H; [|apply _].
    apply Exists_exists in H as (item & Hin & Hn). exists item.
    split; [done|]. cbn in Hn. destruct item.1; [|done].
    destruct Hn. by eexists.
  - intros (item & Hin & Hn) H. rewrite Forall_forall in H.
    destruct (H item Hin) as [x Hx]. congruence.
Qed.

Lemma elem_of_placed items k v :
  (k, v) ∈ placed items <-> (Some k, v) ∈ items.
Proof.
  unfold placed. rewrite list_elem_of_omap. split.
  - intros ([[k'|] v'] & Hin & Heq); cbn in Heq; [|done].
    by injection Heq as -> ->.
  - intros Hin. by exists (Some k, v).
Qed.

(** A failed request aborts the transaction: the call rejects and the
    world is as it was. *)
Lemma bulkAdd_aborted storeName items w :
  connected w ->
  (run_adds (kv_store storeName (disk w)) (placed items)).2 = None ->
  exists e, bulkAdd storeName items w = (Rejected e, w).
Proof.
  intros Hc Hab. destruct (connected_getDB w Hc) as (p & Hg & Ha).
  unfold bulkAdd. rewrite Hg, Ha.
  destruct (run_adds_all_rejected _ _ Hab) as [e He].
  assert (Hne : items <> []).
  { intros ->. cbn in Hab. done. }
  destruct (run_adds (kv_store storeName (disk w)) (placed items)) as [ps r].
  simpl in *. subst r. unfold on_all. rewrite He, Promise_all_mapped.
  case_bool_decide; [|by exists DataError].
  destruct items; [done|]. by exists e.
Qed.

(** Without a failed request the transaction commits what the requests
    wrote, and the call is fulfilled unless an add has thrown. *)
Lemma bulkAdd_committed storeName items w work' :
  connected w ->
  (run_adds (kv_store storeName (disk w)) (placed items)).2 = Some work' ->
  bulkAdd storeName items w
  = (if bool_decide (Forall (fun item : option string * string =>
                               is_Some item.1) items)
     then Fulfilled () else Rejected DataError,
     set_disk (set_kv_store storeName work' (disk w)) w).
Proof.
  intros Hc Hok. destruct (connected_getDB w Hc) as (p & Hg & Ha).
  unfold bulkAdd. rewrite Hg, Ha.
  destruct (run_adds_all_fulfilled _ _ _ Hok) as (H1 & _).
  destruct (run_adds (kv_store storeName (disk w)) (placed items)) as [ps r].
  simpl in *. subst r. unfold on_all. rewrite H1, Promise_all_mapped.
  case_bool_decide; [|done]. by destruct items.
Qed.

(** C4. On an open connection [bulkAdd] is all-or-nothing for the
    failure of a request: if the add request of any item fails (its
    promise is rejected by the request; a key that collides with a
    record of the store makes it fail), the call rejects and the store
    is exactly what it was before the call, so no item of the list has
    been added. An add that throws is another matter: for an item
    without a valid key no request is placed, the call rejects with the
    [DataError], and nothing is rolled back: unless a request fails too,
    every other item of the list is stored. *)
Theorem bulkAdd_all_or_nothing (storeName : kv_store_name)
    (items : list (option string * string)) (w : World) :
  connected w ->
  ((exists item, item ∈ placed items
                 /\ is_Some (kv_store storeName (disk w) !! item.1)) ->
   exists e,
     Rejected e ∈ (run_adds (kv_store storeName (disk w)) (placed items)).1)
  /\ ((exists e,
         Rejected e ∈ (run_adds (kv_store storeName (disk w)) (placed items)).1) ->
      exists e,
        bulkAdd storeName items w = (Rejected e, w)
        /\ kv_store storeName (disk (bulkAdd storeName items w).2)
           = kv_store storeName (disk w)
        /\ forall item, item ∈ placed items ->
             kv_store storeName (disk w) !! item.1 = None ->
             kv_store storeName (disk (bulkAdd storeName items w).2) !! item.1
             = None)
  /\ ((exists item, item ∈ items /\ item.1 = None) ->
      (bulkAdd storeName items w).1 = Rejected DataError
      /\ ((forall e,
             Rejected e ∉ (run_adds (kv_store storeName (disk w))
                                    (placed items)).1) ->
          forall item, item ∈ placed items ->
            kv_store storeName (disk (bulkAdd storeName items w).2) !! item.1
            = Some item.2)).
Proof.
  intros Hc. split; [|split].
  - intros (item & Hin & Hs). apply run_adds_abort.
    by eapply run_adds_collision.
  - intros Hf. apply run_adds_abort in Hf.
    destruct (bulkAdd_aborted storeName items w Hc Hf) as [e He].
    exists e. rewrite He. simpl. auto.
  - intros Hthrow. apply not_all_keyed in Hthrow.
    destruct ((run_adds (kv_store storeName (disk w)) (placed items)).2)
      as [work'|] eqn:E.
    + rewrite (bulkAdd_committed _ _ _ _ Hc E).
      rewrite bool_decide_eq_false_2 by done. split; [done|].
      intros _ item Hin. cbn [snd disk set_disk]. rewrite kv_store_set.
      by destruct (run_adds_all_fulfilled _ _ _ E) as (_ & _ & _ & _ & H5);
        apply H5.
    + split.
      * destruct (connected_getDB w Hc) as (p & Hg & Ha).
        unfold bulkAdd. rewrite Hg, Ha.
        destruct (run_adds_all_rejected _ _ E) as [e He].
        destruct (run_adds (kv_store storeName (disk w)) (placed items))
          as [ps r].
        simpl in *. subst r. unfold on_all. rewrite He, Promise_all_mapped.
        by rewrite bool_decide_eq_false_2.
      * intros Hok. apply run_adds_abort in E as [e He]. by destruct (Hok e).
Qed.

Lemma bulkAdd_collision storeName items w item :
  connected w -> item ∈ placed items ->
  is_Some (kv_store storeName (disk w) !! item.1) ->
  exists e, bulkAdd storeName items w = (Rejected e, w).
Proof.
  intros Hc Hin Hs. apply bulkAdd_aborted; [done|].
  by eapply run_adds_collision.
Qed.

Lemma bulkAdd_all_or_nothing_witness :
  let w := open_world (MkDatabase {["Sato" := "x"]} ∅ empty_store empty_store) in
  let items := [(Some "Abe", "a"); (Some "Sato", "b"); (Some "Ito", "c")] in
  exists e,
    bulkAdd STORE_FAMILIES items w = (Rejected e, w)
    /\ families (disk (bulkAdd STORE_FAMILIES items w).2) !! "Abe" = None
    /\ families (disk (bulkAdd STORE_FAMILIES items w).2) !! "Ito" = None.
Proof.
  intros w items.
  destruct (bulkAdd_all_or_nothing STORE_FAMILIES items w) as (Hcol & Hall & _).
  - exists 0%nat. split; reflexivity.
  - destruct Hall as (e & H1 & _ & H3).
    + apply Hcol. exists ("Sato", "b"). split; [right; left|].
      exists "x". reflexivity.
    + exists e. split; [exact H1|]. split.
      * apply (H3 ("Abe", "a")); [left | reflexivity].
      * apply (H3 ("Ito", "c")); [right; right; left | reflexivity].
Defined.

(** The reading of "all-or-nothing, whichever add fails": a call that
    rejects leaves the store as it was. *)
Lemma bulkAdd_not_rolled_back :
  let w := open_world empty_database in
  let items := [(Some "Abe", "a"); (None, "b"); (Some "Ito", "c")] in
  (bulkAdd STORE_FAMILIES items w).1 = Rejected DataError
  /\ families (disk w) !! "Abe" = None
  /\ families (disk (bulkAdd STORE_FAMILIES items w).2) !! "Abe" = Some "a"
  /\ families (disk (bulkAdd STORE_FAMILIES items w).2) !! "Ito" = Some "c"
  /\ ~ rolls_back STORE_FAMILIES items w.
Proof.
  intros w items. repeat split; try reflexivity.
  intros H. specialize (H DataError eq_refl).
  assert (Some "a" = (None : option string)); [|done].
  change (Some "a")
    with (families (disk (bulkAdd STORE_FAMILIES items w).2) !! "Abe").
  change (families (disk (bulkAdd STORE_FAMILIES items w).2))
    with (kv_store STORE_FAMILIES (disk (bulkAdd STORE_FAMILIES items w).2)).
  by rewrite H.
Qed.

(** * Snapshot stores: failure of the add *)

Lemma performTransaction_rejects_disk {S A} (r : StoreRef S) mode
    (act : S -> request_result A * S) w e w1 :
  performTransaction r mode act w = (Rejected e, w1) -> disk w1 = disk w.
Proof.
  unfold performTransaction.
  destruct (getDB w) as [p w'] eqn:Eg.
  assert (Hd : disk w' = disk w).
  { unfold getDB in Eg. destruct (dbPromise w); by inversion Eg. }
  destruct (await p w'); [by intros [= <-] | | by intros [= _ <-]].
  destruct (act (sel r (disk w'))) as [[x|e'] s']; [|by intros [= _ <-]].
  by destruct mode.
Qed.

(** C7. The add comes first: when the add of the new record fails, the
    call rejects with the error of the add and no record of the database
    is touched, so nothing is evicted. *)
Theorem save_rejects_when_add_fails (data nm : string) (limit : option Z)
    (now : Z) (w w1 : World) (e : error) :
  (add STORE_SAVED_STATES (Snapshot nm data now) w = (Rejected e, w1) ->
   saveState data nm limit now w = (Rejected e, w1) /\ disk w1 = disk w)
  /\ (add STORE_SAVED_PARKING (Snapshot nm data now) w = (Rejected e, w1) ->
      saveParking data nm limit now w = (Rejected e, w1) /\ disk w1 = disk w).
Proof.
  split; intros H; (split; [|by apply performTransaction_rejects_disk in H]).
  - unfold saveState, saveSnapshot. by rewrite H.
  - unfold saveParking, saveSnapshot. by rewrite H.
Qed.

Lemma save_rejects_when_add_fails_witness :
  let old := MkAutoStore {[ 1 := Snapshot "old" "" 5 ]} 2 in
  let w := MkWorld (Some 0%nat) [Rejected OpenBlocked] 1%nat
                   (MkDatabase ∅ ∅ old old) in
  (saveState "s" "n" (Some 0) 9 w = (Rejected OpenBlocked, w)
   /\ savedStates (disk w) = old)
  /\ (saveParking "s" "n" (Some 0) 9 w = (Rejected OpenBlocked, w)
      /\ savedParking (disk w) = old).
Proof.
  intros old w.
  destruct (save_rejects_when_add_fails "s" "n" (Some 0) 9 w w OpenBlocked)
    as [H1 H2].
  split.
  - split; [apply H1|]; reflexivity.
  - split; [apply H2|]; reflexivity.
Defined.

(** * The timestamp index *)

Lemma ikey_leb_spec a b :
  ikey_leb a b = true <-> a.1 < b.1 \/ (a.1 = b.1 /\ a.2 <= b.2).
Proof.
  unfold ikey_leb.
  rewrite orb_true_iff, andb_true_iff, Z.ltb_lt, Z.eqb_eq, Z.leb_le. done.
Qed.

Lemma ikey_ltb_spec a b :
  ikey_ltb a b = true <-> a.1 < b.1 \/ (a.1 = b.1 /\ a.2 < b.2).
Proof.
  unfold ikey_ltb.
  rewrite orb_true_iff, andb_true_iff, !Z.ltb_lt, Z.eqb_eq. done.
Qed.

Global Instance prev_order_trans : Transitive prev_order.
Proof.
  intros a b c. unfold prev_order. rewrite !ikey_leb_spec. lia.
Qed.

Global Instance prev_order_total : Total prev_order.
Proof.
  intros a b. unfold prev_order. rewrite !ikey_leb_spec. lia.
Qed.

Global Instance prev_order_antisym : AntiSymm (=) prev_order.
Proof.
  intros [a1 a2] [b1 b2]. unfold prev_order. rewrite !ikey_leb_spec.
  simpl. intros. f_equal; lia.
Qed.

Lemma ikey_ltb_irrefl a : ikey_ltb a a = false.
Proof.
  apply not_true_is_false. rewrite ikey_ltb_spec. lia.
Qed.

Lemma ikey_ltb_trans a b c :
  ikey_ltb a b = true -> ikey_ltb b c = true -> ikey_ltb a c = true.
Proof. rewrite !ikey_ltb_spec. lia. Qed.

Lemma ikey_ltb_asym a b : ikey_ltb a b = true -> ikey_ltb b a = false.
Proof.
  intros H. apply not_true_is_false. revert H. rewrite !ikey_ltb_spec. lia.
Qed.

Lemma prev_order_strict a b : prev_order a b -> a <> b -> ikey_ltb b a = true.
Proof.
  destruct a as [a1 a2], b as [b1 b2]. unfold prev_order.
  rewrite ikey_leb_spec, ikey_ltb_spec. simpl. intros H Hne.
  destruct (decide (a1 = b1)) as [->|]; [|lia].
  destruct (decide (a2 = b2)) as [->|]; [done|lia].
Qed.

Lemma index_prev_perm m : index_prev m ≡ₚ omap index_entry (map_to_list m).
Proof. apply merge_sort_Permutation. Qed.

(** The index holds an entry for each record with a valid timestamp,
    and no other. *)
Lemma elem_of_index_prev m e :
  e ∈ index_prev m <-> exists s, m !! e.2 = Some s /\ timestamp s = Some e.1.
Proof.
  rewrite index_prev_perm, list_elem_of_omap. split.
  - intros ([k s] & Hin & He). apply elem_of_map_to_list in Hin.
    unfold index_entry in He. cbn in He.
    destruct (timestamp s) as [t|] eqn:Et; [|done].
    cbn in He. injection He as <-. by exists s.
  - intros (s & Hs & Ht). exists (e.2, s). split.
    + by apply elem_of_map_to_list.
    + unfold index_entry. cbn. rewrite Ht. cbn. by destruct e.
Qed.

Lemma index_entries_keys (l : list (Z * snapshot)) :
  (omap index_entry l).*2 `sublist_of` l.*1.
Proof.
  induction l as [|[k r] l IH]; [constructor|].
  cbn. unfold index_entry at 1. cbn.
  destruct (timestamp r); cbn; by constructor.
Qed.

Lemma index_prev_NoDup_keys m : NoDup (index_prev m).*2.
Proof.
  rewrite index_prev_perm.
  apply (sublist_NoDup _ (map_to_list m).*1); [apply NoDup_fst_map_to_list|].
  apply index_entries_keys.
Qed.

Lemma index_prev_NoDup m : NoDup (index_prev m).
Proof. eapply NoDup_fmap_1, index_prev_NoDup_keys. Qed.

Lemma index_prev_sorted m : StronglySorted prev_order (index_prev m).
Proof. apply StronglySorted_merge_sort; apply _. Qed.

Lemma length_index_prev_le m : (length (index_prev m) <= size m)%nat.
Proof.
  rewrite index_prev_perm, <- (length_map_to_list m).
  pose proof (sublist_length _ _ (index_entries_keys (map_to_list m))) as H.
  by rewrite !length_fmap in H.
Qed.

Lemma length_index_prev m : indexed m -> length (index_prev m) = size m.
Proof.
  intros Hm. rewrite index_prev_perm, <- (length_map_to_list m).
  assert (H : Forall (fun kv : Z * snapshot => is_Some (timestamp kv.2))
                     (map_to_list m)).
  { apply Forall_forall. intros [k r] Hin. apply elem_of_map_to_list in Hin.
    by apply (Hm k). }
  induction H as [|[k r] l [t Ht] Hl IH]; [done|].
  cbn. unfold index_entry at 1. cbn in *. rewrite Ht. cbn. by rewrite IH.
Qed.

Lemma index_prev_key_inj m a b :
  a ∈ index_prev m -> b ∈ index_prev m -> a.2 = b.2 -> a = b.
Proof.
  rewrite !elem_of_index_prev. intros (s & Hs & Ht) (s' & Hs' & Ht') Heq.
  rewrite Heq in Hs. rewrite Hs in Hs'. injection Hs' as <-.
  destruct a, b; simpl in *; congruence.
Qed.

Lemma StronglySorted_filter_list {A} (R : relation A) (P : A -> Prop)
    `{!forall x, Decision (P x)} (l : list A) :
  StronglySorted R l -> StronglySorted R (filter P l).
Proof.
  induction 1 as [|x l Hl IH Hx]; [constructor|].
  rewrite filter_cons. destruct (decide (P x)); [|done].
  constructor; [done|]. rewrite Forall_forall in Hx |- *.
  intros y Hy. apply list_elem_of_filter in Hy as [_ Hy]. auto.
Qed.

Lemma filter_all {A} (P : A -> Prop) `{!forall x, Decision (P x)}
    (l : list A) :
  Forall P l -> filter P l = l.
Proof.
  induction 1 as [|x l Hx Hl IH]; [done|].
  by rewrite filter_cons_True, IH.
Qed.

(** Deleting a record removes its entry from the index and leaves the
    order of the other entries alone. *)
Lemma index_prev_delete pk m :
  index_prev (delete pk m) = filter (fun e => e.2 <> pk) (index_prev m).
Proof.
  apply (StronglySorted_unique prev_order).
  - apply index_prev_sorted.
  - apply StronglySorted_filter_list, index_prev_sorted.
  - apply NoDup_Permutation.
    + apply index_prev_NoDup.
    + apply NoDup_filter, index_prev_NoDup.
    + intros e. rewrite list_elem_of_filter, !elem_of_index_prev.
      split.
      * intros (s & Hs & Ht). apply lookup_delete_Some in Hs as [Hne Hs].
        split; [done|]. by exists s.
      * intros (Hne & s & Hs & Ht). exists s. split; [|done].
        by rewrite lookup_delete_ne.
Qed.

(** The entries strictly beyond the head of what is left are the tail of
    what is left. *)
Lemma filter_beyond_advance l pos e rest :
  StronglySorted prev_order l -> NoDup l ->
  filter (beyond pos) l = e :: rest ->
  filter (beyond (Some e)) l = rest.
Proof.
  induction 1 as [|x l Hl IH Hx]; [done|].
  intros Hnd. apply NoDup_cons in Hnd as [Hxl Hnd].
  assert (Hlt : Forall (fun y => ikey_ltb y x = true) l).
  { rewrite Forall_forall in Hx |- *. intros y Hy.
    apply prev_order_strict; [by apply Hx|]. by intros ->. }
  rewrite !filter_cons. destruct (decide (beyond pos x)) as [Hb|Hb].
  - intros [= -> <-]. rewrite decide_False.
    2:{ simpl. by rewrite ikey_ltb_irrefl. }
    rewrite (filter_all (beyond (Some e))); [|done].
    symmetry. apply filter_all.
    eapply Forall_impl; [exact Hlt|]. intros y Hy.
    destruct pos as [p|]; simpl in *; [|done].
    by eapply ikey_ltb_trans.
  - intros Hf. rewrite decide_False; [by apply IH|].
    simpl. assert (He : e ∈ l).
    { assert (e ∈ filter (beyond pos) l) as Hin by (rewrite Hf; left).
      by apply list_elem_of_filter in Hin as [_ ?]. }
    rewrite Forall_forall in Hlt.
    rewrite (ikey_ltb_asym e x); [done|]. by apply Hlt.
Qed.

Lemma filter_ext_elem_of {A} (P Q : A -> Prop) `{!forall x, Decision (P x)}
    `{!forall x, Decision (Q x)} (l : list A) :
  (forall x, x ∈ l -> P x <-> Q x) -> filter P l = filter Q l.
Proof.
  induction l as [|x l IH]; intros Hext; [done|].
  rewrite !filter_cons, IH by (intros y Hy; apply Hext; by right).
  assert (Hx : P x <-> Q x) by (apply Hext; by left).
  destruct (decide (P x)) as [HP|HP], (decide (Q x)) as [HQ|HQ];
    try done; tauto.
Qed.

Lemma cursor_advance m pos e rest :
  filter (beyond pos) (index_prev m) = e :: rest ->
  filter (beyond (Some e)) (index_prev m) = rest
  /\ filter (beyond (Some e)) (index_prev (delete e.2 m)) = rest.
Proof.
  intros Hf.
  assert (Hr : filter (beyond (Some e)) (index_prev m) = rest).
  { eapply filter_beyond_advance;
      [apply index_prev_sorted | apply index_prev_NoDup | exact Hf]. }
  split; [done|].
  assert (He : e ∈ index_prev m).
  { assert (e ∈ filter (beyond pos) (index_prev m)) as Hin
      by (rewrite Hf; left).
    by apply list_elem_of_filter in Hin as [_ ?]. }
  rewrite index_prev_delete, list_filter_filter.
  rewrite <- Hr. apply filter_ext_elem_of. intros y Hy.
  split; [tauto|]. intros Hb. split; [done|]. intros Heq.
  assert (y = e) as -> by (by eapply index_prev_key_inj).
  simpl in Hb. by rewrite ikey_ltb_irrefl in Hb.
Qed.

(** * The eviction pass *)

Lemma run_plus limit a b st :
  run limit (a + b) st = run limit b (run limit a st).
Proof. revert st. induction a as [|a IH]; intros st; simpl; [done|apply IH]. Qed.

Lemma step_terminal limit st : status st <> Active -> step limit None st = st.
Proof. unfold step. by destruct (status st). Qed.

Lemma run_terminal limit n st : status st <> Active -> run limit n st = st.
Proof.
  intros H. induction n as [|n IH]; simpl; [done|].
  by rewrite step_terminal.
Qed.

Lemma step_cursor limit d w pos q c pr vis :
  step limit None (MkTrim d w (cursor_request pos :: q) Active c pr vis)
  = cursorRequest_onsuccess limit (cursor_at w pos)
      (MkTrim d w q Active c pr vis).
Proof. by destruct pos. Qed.

Lemma step_delete limit d w pk q c pr vis :
  step limit None (MkTrim d w (Delete pk :: q) Active c pr vis)
  = MkTrim d (delete pk w) q Active c pr vis.
Proof. done. Qed.

Lemma step_commit limit d w c pr vis :
  step limit None (MkTrim d w [] Active c pr vis)
  = MkTrim w w [] Committed c (Promise.resolve () pr) vis.
Proof. done. Qed.

(** A request that fails while the pass is under way rejects the promise
    and aborts the transaction: the committed store keeps every record. *)
Lemma step_fault_aborts limit e st :
  status st = Active -> queue st <> [] ->
  status (step limit (Some e) st) = Aborted
  /\ durable (step limit (Some e) st) = durable st
  /\ promise (step limit (Some e) st) = Promise.reject e (promise st).
Proof.
  intros Hs Hq. unfold step. rewrite Hs.
  destruct (queue st) as [|[| |] q]; [done|..]; cbn; repeat split;
    by destruct (promise st).
Qed.

(** From a cursor request at position [pos] with [rest] still ahead, the
    platform reaches the end-of-cursor event after
    [evict_turns limit c rest] turns: the promise is then fulfilled, the
    queue is empty, the transaction is still active and nothing has been
    committed; the promise is pending at every earlier turn. *)
Lemma run_walk limit rest : forall d w pos c vis,
  filter (beyond pos) (index_prev w) = rest ->
  run limit (evict_turns limit c rest)
      (MkTrim d w [cursor_request pos] Active c Pending vis)
  = MkTrim d (evict limit c rest w) [] Active (c + Z.of_nat (length rest))
           (Fulfilled ()) (vis ++ rest)
  /\ forall j, (j < evict_turns limit c rest)%nat ->
       promise (run limit j
                  (MkTrim d w [cursor_request pos] Active c Pending vis))
       = Pending.
Proof.
  induction rest as [|e rest IH]; intros d w pos c vis Hf.
  - simpl. rewrite step_cursor. unfold cursor_at. rewrite Hf. simpl.
    rewrite Z.add_0_r, app_nil_r. split; [done|].
    intros j Hj. by replace j with 0%nat by lia.
  - destruct (cursor_advance w pos e rest Hf) as [Hkeep Hdel].
    assert (Hc : cursor_at w pos = Some e) by (unfold cursor_at; by rewrite Hf).
    cbn [evict_turns evict length].
    replace (c + Z.of_nat (S (length rest))) with (c + 1 + Z.of_nat (length rest))
      by lia.
    replace (vis ++ e :: rest) with ((vis ++ [e]) ++ rest)
      by (by rewrite <- app_assoc).
    destruct (bool_decide (c + 1 > limit)) eqn:Hd.
    + destruct (IH d (delete e.2 w) (Some e) (c + 1) (vis ++ [e]) Hdel)
        as [IH1 IH2].
      split.
      * rewrite <- IH1. cbn [Nat.add run]. rewrite step_cursor, Hc.
        unfold cursorRequest_onsuccess. cbn. rewrite Hd. by cbn.
      * intros j Hj. destruct j as [|[|j]]; [done| |].
        -- cbn [run]. rewrite step_cursor, Hc. done.
        -- cbn [run]. rewrite step_cursor, Hc.
           unfold cursorRequest_onsuccess. cbn. rewrite Hd. cbn.
           apply IH2. lia.
    + destruct (IH d w (Some e) (c + 1) (vis ++ [e]) Hkeep) as [IH1 IH2].
      split.
      * rewrite <- IH1. cbn [Nat.add run]. rewrite step_cursor, Hc.
        unfold cursorRequest_onsuccess. cbn. by rewrite Hd.
      * intros j Hj. destruct j as [|j]; [done|].
        cbn [run]. rewrite step_cursor, Hc.
        unfold cursorRequest_onsuccess. cbn. rewrite Hd. cbn.
        apply IH2. lia.
Qed.

Lemma evict_turns_bound limit rest : forall c,
  (1 <= evict_turns limit c rest <= 2 * length rest + 1)%nat.
Proof.
  induction rest as [|e rest IH]; intros c; simpl; [lia|].
  specialize (IH (c + 1)). destruct (bool_decide (c + 1 > limit)); lia.
Qed.

Lemma filter_beyond_None (l : list ikey) : filter (beyond None) l = l.
Proof. apply filter_all, Forall_forall. by intros. Qed.

(** The pass from start to commit. *)
Lemma run_to_cursor_end limit m :
  let turns := evict_turns limit 0 (index_prev m) in
  run limit turns (start_trim m)
  = MkTrim m (evict limit 0 (index_prev m) m) [] Active
           (Z.of_nat (length (index_prev m))) (Fulfilled ()) (index_prev m)
  /\ forall j, (j < turns)%nat ->
       promise (run limit j (start_trim m)) = Pending.
Proof.
  intros turns.
  destruct (run_walk limit (index_prev m) m m None 0 []
              (filter_beyond_None _)) as [H1 H2].
  split; [|exact H2].
  unfold start_trim, turns. change OpenCursor with (cursor_request None).
  by rewrite H1.
Qed.

Lemma run_complete limit m :
  run limit (trim_fuel m) (start_trim m)
  = MkTrim (evict limit 0 (index_prev m) m) (evict limit 0 (index_prev m) m)
           [] Committed (Z.of_nat (length (index_prev m))) (Fulfilled ())
           (index_prev m).
Proof.
  destruct (run_to_cursor_end limit m) as [H _].
  pose proof (evict_turns_bound limit (index_prev m) 0) as Hb.
  pose proof (length_index_prev_le m) as Hle.
  replace (trim_fuel m)
    with (evict_turns limit 0 (index_prev m)
          + (1 + (trim_fuel m - evict_turns limit 0 (index_prev m) - 1)))%nat
    by (unfold trim_fuel; lia).
  rewrite run_plus, H, run_plus. cbn [run]. rewrite step_commit.
  by rewrite run_terminal.
Qed.

(** ** The walk deletes the entries beyond the limit *)

Lemma delete_entries_delete l k m :
  delete_entries l (delete k m) = delete k (delete_entries l m).
Proof.
  induction l as [|e l IH]; simpl; [done|].
  by rewrite IH, delete_delete.
Qed.

Lemma evict_drop limit rest : forall c w,
  evict limit c rest w = delete_entries (drop (Z.to_nat (limit - c)) rest) w.
Proof.
  induction rest as [|e rest IH]; intros c w; simpl.
  - by rewrite drop_nil.
  - rewrite IH. case_bool_decide as Hc.
    + replace (Z.to_nat (limit - (c + 1))) with 0%nat by lia.
      replace (Z.to_nat (limit - c)) with 0%nat by lia.
      simpl. apply delete_entries_delete.
    + replace (Z.to_nat (limit - c)) with (S (Z.to_nat (limit - (c + 1))))
        by lia.
      done.
Qed.

Lemma evict_keep_newest limit m :
  evict limit 0 (index_prev m) m = keep_newest limit m.
Proof. unfold keep_newest. by rewrite evict_drop, Z.sub_0_r. Qed.

Lemma delete_entries_lookup l m k :
  delete_entries l m !! k = if decide (k ∈ l.*2) then None else m !! k.
Proof.
  induction l as [|e l IH].
  - destruct (decide (k ∈ ([] : list ikey).*2)) as [Hin|Hin]; [|done].
    by apply elem_of_nil in Hin.
  - change (delete_entries (e :: l) m) with (delete e.2 (delete_entries l m)).
    rewrite fmap_cons. destruct (decide (e.2 = k)) as [<-|Hne].
    + rewrite lookup_delete_eq.
      destruct (decide (e.2 ∈ e.2 :: l.*2)) as [Hin|Hin]; [done|].
      destruct Hin. by left.
    + rewrite lookup_delete_ne, IH by done.
      destruct (decide (k ∈ l.*2)) as [Hin|Hin],
               (decide (k ∈ e.2 :: l.*2)) as [Hin'|Hin']; try done.
      * destruct Hin'. by right.
      * apply elem_of_cons in Hin' as [?|?]; congruence.
Qed.

Lemma size_delete_entries l m :
  NoDup l.*2 -> (forall e, e ∈ l -> is_Some (m !! e.2)) ->
  size (delete_entries l m) = (size m - length l)%nat.
Proof.
  induction l as [|e l IH]; simpl; intros Hnd Hin; [lia|].
  apply NoDup_cons in Hnd as [Hne Hnd].
  rewrite map_size_delete_Some.
  - rewrite IH; [lia|done|]. intros e' He'. apply Hin. by right.
  - rewrite delete_entries_lookup.
    destruct (decide (e.2 ∈ l.*2)); [done|]. apply Hin. by left.
Qed.

Lemma size_keep_newest limit m :
  size (keep_newest limit m)
  = (size m - (length (index_prev m) - Z.to_nat limit))%nat.
Proof.
  unfold keep_newest. rewrite size_delete_entries.
  - by rewrite length_drop.
  - rewrite fmap_drop. eapply sublist_NoDup; [|apply sublist_drop].
    apply index_prev_NoDup_keys.
  - intros e He. eapply elem_of_sublist in He; [|apply sublist_drop].
    apply elem_of_index_prev in He as (s & Hs & _). by eexists.
Qed.

Lemma keep_newest_lookup limit m i e :
  index_prev m !! i = Some e ->
  keep_newest limit m !! e.2
  = if bool_decide (Z.of_nat (S i) > limit) then None else m !! e.2.
Proof.
  intros Hi. unfold keep_newest. rewrite delete_entries_lookup.
  set (n := Z.to_nat limit).
  destruct (decide (e.2 ∈ (drop n (index_prev m)).*2)) as [Hin|Hin];
    case_bool_decide as Hr; try done.
  - apply list_elem_of_fmap in Hin as (e' & Heq & Hin).
    apply list_elem_of_lookup in Hin as (j & Hj). rewrite lookup_drop in Hj.
    assert (e' = e) as ->.
    { eapply index_prev_key_inj; eauto using list_elem_of_lookup_2. }
    pose proof (index_prev_NoDup m) as Hnd.
    assert (i = (n + j)%nat) by (eapply NoDup_lookup; eauto). lia.
  - destruct Hin. apply list_elem_of_fmap. exists e.
    split; [done|]. apply list_elem_of_lookup. exists (i - n)%nat.
    rewrite lookup_drop. rewrite <- Hi. f_equal. lia.
Qed.

Lemma keep_newest_subseteq limit m : keep_newest limit m ⊆ m.
Proof.
  apply map_subseteq_spec. intros k x. unfold keep_newest.
  rewrite delete_entries_lookup.
  by destruct (decide (k ∈ (drop (Z.to_nat limit) (index_prev m)).*2)).
Qed.

Lemma size_keep_newest_indexed limit m :
  indexed m -> size (keep_newest limit m) = (size m `min` Z.to_nat limit)%nat.
Proof. intros Hm. rewrite size_keep_newest, length_index_prev by done. lia. Qed.

(** A record without an entry in the index is out of the walk's reach. *)
Lemma keep_newest_unindexed limit m k r :
  m !! k = Some r -> timestamp r = None -> keep_newest limit m !! k = Some r.
Proof.
  intros Hk Ht. unfold keep_newest. rewrite delete_entries_lookup.
  destruct (decide (k ∈ (drop (Z.to_nat limit) (index_prev m)).*2))
    as [Hin|]; [|done].
  apply list_elem_of_fmap in Hin as (e & -> & Hin).
  eapply elem_of_sublist in Hin; [|apply sublist_drop].
  apply elem_of_index_prev in Hin as (s & Hs & Hts). congruence.
Qed.

Lemma keep_newest_all limit m :
  limit <= 0 ->
  keep_newest limit m
  = filter (fun kv : Z * snapshot => timestamp kv.2 = None) m.
Proof.
  intros Hl. apply map_eq. intros k. rewrite map_lookup_filter.
  unfold keep_newest. rewrite delete_entries_lookup.
  replace (Z.to_nat limit) with 0%nat by lia. rewrite drop_0.
  destruct (m !! k) as [r|] eqn:Hk; cbn.
  - destruct (timestamp r) as [t|] eqn:Ht.
    + rewrite decide_True; [by rewrite option_guard_False|].
      apply list_elem_of_fmap. exists (t, k). split; [done|].
      apply elem_of_index_prev. by exists r.
    + rewrite option_guard_True by done. cbn.
      destruct (decide (k ∈ (index_prev m).*2)) as [Hin|]; [|done].
      apply list_elem_of_fmap in Hin as (e & -> & Hin).
      apply elem_of_index_prev in Hin as (s & Hs & Hts). congruence.
  - by destruct (decide (k ∈ (index_prev m).*2)).
Qed.

Lemma keep_newest_all_indexed limit m :
  indexed m -> limit <= 0 -> keep_newest limit m = ∅.
Proof.
  intros Hm Hl. apply map_size_empty_inv.
  rewrite size_keep_newest_indexed by done. lia.
Qed.

Lemma keep_newest_none limit m :
  Z.of_nat (length (index_prev m)) <= limit -> keep_newest limit m = m.
Proof.
  intros Hl. unfold keep_newest. rewrite drop_ge; [done|]. lia.
Qed.

Lemma StronglySorted_weaken {A} (R R' : relation A) (l : list A) :
  (forall a b, R a b -> R' a b) -> StronglySorted R l -> StronglySorted R' l.
Proof.
  intros HR. induction 1 as [|x l Hl IH Hx]; constructor; [done|].
  eapply Forall_impl; [exact Hx|]. auto.
Qed.

Lemma index_prev_timestamps m :
  StronglySorted (fun a b : ikey => b.1 <= a.1) (index_prev m).
Proof.
  eapply StronglySorted_weaken; [|apply index_prev_sorted].
  intros a b. unfold prev_order. rewrite ikey_leb_spec. lia.
Qed.

(** With a clock that does not run backwards and a key generator above
    the stored keys, the record just added is the first one visited. *)
Lemma index_prev_head_newest m k item now :
  timestamp item = Some now ->
  (forall j r t, m !! j = Some r -> timestamp r = Some t -> j < k /\ t <= now) ->
  head (index_prev (<[k := item]> m)) = Some (now, k).
Proof.
  intros Hnow Hold.
  assert (Hin : (now, k) ∈ index_prev (<[k := item]> m)).
  { apply elem_of_index_prev. exists item. simpl.
    by rewrite lookup_insert_eq. }
  pose proof (index_prev_sorted (<[k := item]> m)) as Hs.
  assert (Hmem : forall x, x ∈ index_prev (<[k := item]> m) ->
            exists s, <[k := item]> m !! x.2 = Some s /\ timestamp s = Some x.1).
  { intros x. by rewrite elem_of_index_prev. }
  destruct (index_prev (<[k := item]> m)) as [|x l];
    [by apply elem_of_nil in Hin|].
  simpl. f_equal. apply elem_of_cons in Hin as [Heq|Hin]; [done|].
  apply StronglySorted_inv in Hs as [_ Hx].
  rewrite Forall_forall in Hx. specialize (Hx _ Hin).
  destruct (Hmem x) as (s & Hs' & Ht); [by left|].
  unfold prev_order in Hx. rewrite ikey_leb_spec in Hx. simpl in Hx.
  destruct x as [x1 x2]. simpl in *.
  destruct (decide (x2 = k)) as [->|Hne].
  - rewrite lookup_insert_eq in Hs'. injection Hs' as <-. congruence.
  - rewrite lookup_insert_ne in Hs' by done.
    destruct (Hold _ _ _ Hs' Ht) as [H1 H2]. lia.
Qed.

(** * saveState / saveParking *)

Lemma await_fulfilled p w : await p w = Fulfilled () ->
  heap w !! p = Some (Fulfilled ()).
Proof.
  unfold await. destruct (heap w !! p) as [s|]; simpl; [|done].
  by intros ->.
Qed.

Lemma snap_store_set n s d : snap_store n (set_snap_store n s d) = s.
Proof. by destruct n. Qed.


Lemma performTransaction_pending_disk {S A} (r : StoreRef S) mode
    (act : S -> request_result A * S) w w1 :
  performTransaction r mode act w = (Pending, w1) -> disk w1 = disk w.
Proof.
  unfold performTransaction.
  destruct (getDB w) as [p w'] eqn:Eg.
  assert (Hd : disk w' = disk w).
  { unfold getDB in Eg. destruct (dbPromise w); by inversion Eg. }
  destruct (await p w'); [by intros [= <-] | | done].
  destruct (act (sel r (disk w'))) as [[x|e'] s']; [|done].
  by destruct mode.
Qed.

Lemma add_fulfilled n item w k w1 :
  add n item w = (Fulfilled k, w1) ->
  let s := snap_store n (disk w) in
  connected w1
  /\ keyGen s <= MAX_GENERATED_KEY
  /\ records s !! keyGen s = None
  /\ k = keyGen s
  /\ snap_store n (disk w1)
     = MkAutoStore (<[keyGen s := item]> (records s)) (keyGen s + 1)
  /\ disk w1
     = set_snap_store n
         (MkAutoStore (<[keyGen s := item]> (records s)) (keyGen s + 1))
         (disk w).
Proof.
  intros H s. unfold add, performTransaction in H.
  destruct (getDB w) as [p w0] eqn:Eg.
  assert (Hm : dbPromise w0 = Some p).
  { pose proof (getDB_sets_memo w) as Hm. by rewrite Eg in Hm. }
  assert (Hd : disk w0 = disk w).
  { unfold getDB in Eg. destruct (dbPromise w); by inversion Eg. }
  destruct (await p w0) as [|[]|e] eqn:Ea; [done| |done].
  apply await_fulfilled in Ea. rewrite Hd in H. simpl in H. fold s in H.
  unfold store_add in H. case_bool_decide as Hmax; [done|].
  destruct (records s !! keyGen s) eqn:Ek; [done|].
  injection H as <- <-. repeat split; try done.
  - exists p. done.
  - simpl. by rewrite snap_store_set.
Qed.

Lemma connected_set_disk d w : connected w -> connected (set_disk d w).
Proof. intros (p & Hp & Hh). by exists p. Qed.

(** Once the add has succeeded the pass runs to its end: the call is
    fulfilled and the store holds what the pass left. *)
Lemma saveSnapshot_after_add n data nm limit now w k w1 :
  add n (Snapshot nm data now) w = (Fulfilled k, w1) ->
  saveSnapshot n data nm limit now w
  = (Fulfilled (),
     set_disk
       (set_snap_store n
          (MkAutoStore (keep_newest limit (records (snap_store n (disk w1))))
                       (keyGen (snap_store n (disk w1))))
          (disk w1)) w1).
Proof.
  intros Ea. unfold saveSnapshot. rewrite Ea.
  destruct (add_fulfilled _ _ _ _ _ Ea) as (Hc & _).
  destruct (connected_getDB w1 Hc) as (p & -> & ->).
  rewrite run_complete. cbn [promise durable]. by rewrite evict_keep_newest.
Qed.


(** A call that is not fulfilled has written nothing. *)
Lemma saveSnapshot_unfulfilled n data nm limit now w :
  (saveSnapshot n data nm limit now w).1 <> Fulfilled () ->
  disk (saveSnapshot n data nm limit now w).2 = disk w.
Proof.
  destruct (add n (Snapshot nm data now) w) as [[|k|e] w1] eqn:Ea.
  - unfold saveSnapshot. rewrite Ea. intros _.
    by apply performTransaction_pending_disk in Ea.
  - rewrite (saveSnapshot_after_add _ _ _ _ _ _ _ _ Ea). by intros [].
  - unfold saveSnapshot. rewrite Ea. intros _.
    by apply performTransaction_rejects_disk in Ea.
Qed.

Lemma add_connected n item w :
  connected w ->
  keyGen (snap_store n (disk w)) <= MAX_GENERATED_KEY ->
  records (snap_store n (disk w)) !! keyGen (snap_store n (disk w)) = None ->
  add n item w
  = (Fulfilled (keyGen (snap_store n (disk w))),
     set_disk (set_snap_store n
                 (MkAutoStore (<[keyGen (snap_store n (disk w)) := item]>
                                 (records (snap_store n (disk w))))
                              (keyGen (snap_store n (disk w)) + 1))
                 (disk w)) w).
Proof.
  intros Hc Hmax Hk. destruct (connected_getDB w Hc) as (p & Hg & Ha).
  unfold add, performTransaction. rewrite Hg, Ha.
  cbn [sel upd snap_ref]. unfold store_add.
  rewrite bool_decide_eq_false_2 by lia. by rewrite Hk.
Qed.

(** With the key generator used up the add fails, whatever the store
    holds. *)
Lemma add_exhausted n item w :
  connected w ->
  keyGen (snap_store n (disk w)) > MAX_GENERATED_KEY ->
  add n item w = (Rejected ConstraintError, w).
Proof.
  intros Hc Hmax. destruct (connected_getDB w Hc) as (p & Hg & Ha).
  unfold add, performTransaction. rewrite Hg, Ha.
  cbn [sel upd snap_ref]. unfold store_add.
  by rewrite bool_decide_eq_true_2.
Qed.

Lemma saveSnapshot_exhausted n data nm limit now w :
  connected w ->
  keyGen (snap_store n (disk w)) > MAX_GENERATED_KEY ->
  saveSnapshot n data nm limit now w = (Rejected ConstraintError, w).
Proof.
  intros Hc Hmax. unfold saveSnapshot. by rewrite add_exhausted.
Qed.

Lemma saveSnapshot_connected n data nm limit now w :
  connected w ->
  keyGen (snap_store n (disk w)) <= MAX_GENERATED_KEY ->
  records (snap_store n (disk w)) !! keyGen (snap_store n (disk w)) = None ->
  saveSnapshot n data nm limit now w
  = (Fulfilled (),
     set_disk
       (set_snap_store n
          (MkAutoStore
             (keep_newest limit
                (<[keyGen (snap_store n (disk w)) := Snapshot nm data now]>
                   (records (snap_store n (disk w)))))
             (keyGen (snap_store n (disk w)) + 1))
          (disk w)) w).
Proof.
  intros Hc Hmax Hk.
  rewrite (saveSnapshot_after_add _ _ _ _ _ _ _ _ (add_connected _ _ _ Hc Hmax Hk)).
  cbn [disk set_disk]. rewrite snap_store_set. cbn [records keyGen].
  f_equal. unfold set_disk. cbn. f_equal. by destruct n.
Qed.

Lemma keys_below_fresh s :
  keys_below s -> keyGen s <= MAX_GENERATED_KEY -> records s !! keyGen s = None.
Proof.
  intros H Hmax. destruct (records s !! keyGen s) eqn:E; [|done].
  assert (Z.min (keyGen s) MAX_GENERATED_KEY < keyGen s)
    by (apply H; by eexists).
  lia.
Qed.

Lemma keys_below_lt s k :
  keys_below s -> keyGen s <= MAX_GENERATED_KEY ->
  is_Some (records s !! k) -> k < keyGen s.
Proof. intros H Hmax Hk. specialize (H k Hk). lia. Qed.

Lemma keys_below_saved limit s item :
  keys_below s ->
  keys_below (MkAutoStore (keep_newest limit (<[keyGen s := item]> (records s)))
                          (keyGen s + 1)).
Proof.
  intros H k [x Hx]. cbn in *.
  eapply lookup_weaken in Hx; [|apply keep_newest_subseteq].
  apply lookup_insert_Some in Hx as [[<- _]|[_ Hx]]; [lia|].
  assert (Z.min k MAX_GENERATED_KEY < keyGen s) by (apply H; by eexists). lia.
Qed.

Lemma indexed_insert m k item :
  indexed m -> is_Some (timestamp item) -> indexed (<[k := item]> m).
Proof.
  intros Hm Hi j r Hj.
  apply lookup_insert_Some in Hj as [[_ <-]|[_ Hj]]; [done|]. by apply (Hm j).
Qed.

Lemma indexed_subseteq m m' : m' ⊆ m -> indexed m -> indexed m'.
Proof. intros Hsub Hm j r Hj. apply (Hm j). by eapply lookup_weaken. Qed.










(** C8. Once its add has succeeded, [saveState] / [saveParking] is
    fulfilled and leaves in the store what the eviction pass leaves.
    The pass runs to the commit; it visits once, newest timestamp first,
    every record that has an entry in the timestamp index, the record
    just added among them; the record visited with rank [i + 1] is
    deleted exactly when that rank exceeds [limit]; a record without an
    entry in the index is not visited and stays, and nothing else
    changes. So a limit of 0 or less deletes every record of the index,
    the one just added included, and a collection of at most [limit]
    records loses nothing. The record just added has rank 1 when no
    stored timestamp is later than its own. *)
Theorem eviction_by_rank (limit : Z) (n : snap_store_name) (data nm : string)
    (now : Z) (w w1 : World) (k : Z) :
  add n (Snapshot nm data now) w = (Fulfilled k, w1) ->
  let m := records (snap_store n (disk w1)) in
  let st := run limit (trim_fuel m) (start_trim m) in
  saveSnapshot n data nm limit now w
  = (Fulfilled (),
     set_disk (set_snap_store n
                 (MkAutoStore (durable st) (keyGen (snap_store n (disk w1))))
                 (disk w1)) w1)
  /\ m = <[k := Snapshot nm data now]> (records (snap_store n (disk w)))
  /\ status st = Committed
  /\ visited st ≡ₚ omap index_entry (map_to_list m)
  /\ StronglySorted (fun a b : ikey => b.1 <= a.1) (visited st)
  /\ (forall i e, visited st !! i = Some e ->
        durable st !! e.2
        = if bool_decide (Z.of_nat (S i) > limit) then None else m !! e.2)
  /\ (forall j r, m !! j = Some r -> timestamp r = None ->
        durable st !! j = Some r)
  /\ durable st ⊆ m
  /\ (limit <= 0 ->
      durable st = filter (fun kv : Z * snapshot => timestamp kv.2 = None) m)
  /\ (Z.of_nat (size m) <= limit -> durable st = m)
  /\ (keys_below (snap_store n (disk w)) ->
      (forall j r t, records (snap_store n (disk w)) !! j = Some r ->
                     timestamp r = Some t -> t <= now) ->
      head (visited st) = Some (now, k)).
Proof.
  intros Ea m st.
  destruct (add_fulfilled _ _ _ _ _ Ea) as (_ & Hmax & _ & -> & Hs1 & _).
  assert (Hm : m = <[keyGen (snap_store n (disk w)) := Snapshot nm data now]>
                     (records (snap_store n (disk w)))).
  { subst m. by rewrite Hs1. }
  assert (Hst : st = MkTrim (keep_newest limit m) (keep_newest limit m) []
                       Committed (Z.of_nat (length (index_prev m)))
                       (Fulfilled ()) (index_prev m)).
  { subst st. by rewrite run_complete, evict_keep_newest. }
  rewrite Hst. cbn [status visited durable].
  split.
  { by rewrite (saveSnapshot_after_add _ _ _ _ _ _ _ _ Ea). }
  split; [done|]. split; [done|]. split; [apply index_prev_perm|].
  split; [apply index_prev_timestamps|].
  split; [intros i e; apply keep_newest_lookup|].
  split; [intros j r; apply keep_newest_unindexed|].
  split; [apply keep_newest_subseteq|].
  split; [apply keep_newest_all|].
  split.
  { intros Hl. apply keep_newest_none.
    pose proof (length_index_prev_le m). lia. }
  intros Hk Hold. rewrite Hm.
  apply (index_prev_head_newest _ _ (Snapshot nm data now)); [done|].
  intros j r t Hj Ht. split; [|by eapply Hold].
  apply keys_below_lt; [done|done|by eexists].
Qed.

Lemma eviction_by_rank_witness :
  let w := open_world (MkDatabase ∅ ∅ (MkAutoStore two_saves 3) empty_store) in
  saveState "s" "n" (Some 0) 30 w
  = (Fulfilled (),
     open_world (MkDatabase ∅ ∅ (MkAutoStore ∅ 4) empty_store))
  /\ head (visited (run 0 (trim_fuel (<[3 := Snapshot "n" "s" 30]> two_saves))
                      (start_trim (<[3 := Snapshot "n" "s" 30]> two_saves))))
     = Some (30, 3).
Proof.
  intros w.
  destruct (eviction_by_rank 0 STORE_SAVED_STATES "s" "n" 30 w
              (add STORE_SAVED_STATES (Snapshot "n" "s" 30) w).2 3 eq_refl)
    as (E & _ & _ & _ & _ & _ & _ & _ & _ & _ & Hfirst).
  split.
  - change (saveState "s" "n" (Some 0) 30 w)
      with (saveSnapshot STORE_SAVED_STATES "s" "n" 0 30 w).
    rewrite E. reflexivity.
  - apply Hfirst.
    + intros j [x Hx]. cbn in Hx.
      assert (Heq : two_saves = <[2 := Snapshot "second" "" 20]>
                                  (<[1 := Snapshot "first" "" 10]> ∅))
        by reflexivity.
      rewrite Heq in Hx.
      apply lookup_insert_Some in Hx as [[<- _]|[_ Hx]]; [by vm_compute|].
      apply lookup_insert_Some in Hx as [[<- _]|[_ Hx]]; [by vm_compute|].
      by rewrite lookup_empty in Hx.
    + intros j r t Hj Ht. cbn in Hj.
      assert (Heq : two_saves = <[2 := Snapshot "second" "" 20]>
                                  (<[1 := Snapshot "first" "" 10]> ∅))
        by reflexivity.
      rewrite Heq in Hj.
      apply lookup_insert_Some in Hj as [[_ <-]|[_ Hj]];
        [injection Ht as <-; lia|].
      apply lookup_insert_Some in Hj as [[_ <-]|[_ Hj]];
        [injection Ht as <-; lia|].
      by rewrite lookup_empty in Hj.
Defined.

(** A record without a timestamp, as [addParking] can store one, is out
    of the reach of the pass: a [saveParking] with limit 0 leaves it in
    the collection. And the record just added is not always the first
    one visited: next to a record with a later timestamp it has rank 2,
    and a limit of 1 deletes it. *)
Lemma eviction_skips_unindexed :
  (let imported := MkSnapshot "imported" "" None in
   let w := open_world (MkDatabase ∅ ∅ empty_store
                          (MkAutoStore {[ 1 := imported ]} 2)) in
   let r := saveParking "parking" "name" (Some 0) 9 w in
   r.1 = Fulfilled ()
   /\ records (savedParking (disk r.2)) !! 1 = Some imported)
  /\ (let w := open_world (MkDatabase ∅ ∅
                             (MkAutoStore {[ 1 := Snapshot "later" "" 50 ]} 2)
                             empty_store) in
      let r := saveState "state" "name" (Some 1) 9 w in
      r.1 = Fulfilled ()
      /\ records (savedStates (disk r.2)) !! 2 = None
      /\ records (savedStates (disk r.2)) !! 1 = Some (Snapshot "later" "" 50)).
Proof. repeat split; reflexivity. Qed.

(** C2. The promise of the eviction pass is fulfilled by
    the end-of-cursor event: it is pending at every earlier turn; at
    that turn every request the pass placed has run, so the transaction
    already sees the trimmed collection, but the transaction is still
    active and the committed store is the one the pass started from.
    The commit follows at the next turn, and the [resolve] of
    [transaction.oncomplete] then changes nothing. *)
Theorem resolves_at_cursor_end (limit : Z) (m : gmap Z snapshot) :
  let turns := evict_turns limit 0 (index_prev m) in
  let st := run limit turns (start_trim m) in
  (forall j, (j < turns)%nat -> promise (run limit j (start_trim m)) = Pending)
  /\ promise st = Fulfilled ()
  /\ status st = Active
  /\ queue st = []
  /\ work st = keep_newest limit m
  /\ durable st = m
  /\ status (step limit None st) = Committed
  /\ durable (step limit None st) = keep_newest limit m
  /\ promise (step limit None st) = Fulfilled ().
Proof.
  intros turns st. destruct (run_to_cursor_end limit m) as [H1 H2].
  subst st turns. rewrite H1. cbn [promise status queue work durable].
  rewrite step_commit, evict_keep_newest. cbn. repeat split; auto.
Qed.

(** With two saved records and a limit of 1, the promise is fulfilled
    while the transaction is still active and both records are still in
    the committed store. *)
Lemma resolves_before_commit :
  promise (run 1 4 (start_trim two_saves)) = Fulfilled ()
  /\ status (run 1 4 (start_trim two_saves)) = Active
  /\ size (durable (run 1 4 (start_trim two_saves))) = 2%nat
  /\ ~ resolves_only_after_commit 1 two_saves.
Proof.
  split; [reflexivity|]. split; [reflexivity|]. split; [reflexivity|].
  intros H. specialize (H 4%nat eq_refl). discriminate H.
Qed.

Lemma resolves_at_cursor_end_witness :
  promise (run 1 3 (start_trim two_saves)) = Pending
  /\ promise (run 1 4 (start_trim two_saves)) = Fulfilled ()
  /\ status (step 1 None (run 1 4 (start_trim two_saves))) = Committed.
Proof.
  destruct (resolves_at_cursor_end 1 two_saves)
    as (H1 & H2 & _ & _ & _ & _ & H3 & _).
  split; [|split].
  - apply (H1 3%nat). vm_compute. lia.
  - exact H2.
  - exact H3.
Defined.

(** * getAllSavedStates / getAllSavedParking *)

Lemma sort_insert_perm {A} (cmp : A -> A -> Z) x (l : list A) :
  sort_insert cmp x l ≡ₚ x :: l.
Proof.
  induction l as [|y l IH]; simpl; [done|].
  destruct (cmp x y <=? 0); [done|].
  rewrite IH. apply Permutation_swap.
Qed.

Lemma js_sort_perm {A} (cmp : A -> A -> Z) (l : list A) : js_sort cmp l ≡ₚ l.
Proof.
  induction l as [|x l IH]; simpl; [done|].
  by rewrite sort_insert_perm, IH.
Qed.

Lemma newer_or_same_spec a b ta tb :
  timestamp a.2 = Some ta -> timestamp b.2 = Some tb ->
  newer_or_same a b <-> tb <= ta.
Proof. unfold newer_or_same. by intros -> ->. Qed.

Lemma newest_first_spec a b ta tb :
  timestamp a.2 = Some ta -> timestamp b.2 = Some tb ->
  newest_first a b = tb - ta.
Proof. unfold newest_first. by intros -> ->. Qed.

Lemma sort_insert_sorted x l :
  is_Some (timestamp x.2) ->
  Forall (fun r : Z * snapshot => is_Some (timestamp r.2)) l ->
  StronglySorted newer_or_same l ->
  StronglySorted newer_or_same (sort_insert newest_first x l).
Proof.
  intros [tx Hx] Hall Hs. induction Hs as [|y l Hl IH Hy]; simpl.
  - repeat constructor.
  - apply Forall_cons in Hall as [[ty Hty] Hall].
    rewrite (newest_first_spec x y tx ty) by done.
    destruct (Z.leb_spec (ty - tx) 0).
    + constructor; [by constructor|]. constructor.
      * rewrite (newer_or_same_spec x y tx ty) by done. lia.
      * rewrite Forall_forall in Hy, Hall |- *. intros z Hz.
        destruct (Hall z Hz) as [tz Htz]. specialize (Hy z Hz).
        rewrite (newer_or_same_spec y z ty tz) in Hy by done.
        rewrite (newer_or_same_spec x z tx tz) by done. lia.
    + constructor; [by apply IH|]. rewrite sort_insert_perm.
      constructor; [|done].
      rewrite (newer_or_same_spec y x ty tx) by done. lia.
Qed.

Lemma js_sort_sorted l :
  Forall (fun r : Z * snapshot => is_Some (timestamp r.2)) l ->
  StronglySorted newer_or_same (js_sort newest_first l).
Proof.
  induction 1 as [|x l Hx Hl IH]; simpl; [constructor|].
  apply sort_insert_sorted; [done| |done]. by rewrite js_sort_perm.
Qed.

(** The sort is stable: records with the same timestamp stay in the
    order [getAll] gave them. *)
Lemma sort_insert_stable t x l :
  filter (fun r : Z * snapshot => timestamp r.2 = t)
         (sort_insert newest_first x l)
  = filter (fun r : Z * snapshot => timestamp r.2 = t) (x :: l).
Proof.
  induction l as [|y l IH]; simpl; [done|].
  unfold newest_first at 1.
  destruct (timestamp y.2) as [ty|] eqn:Ey, (timestamp x.2) as [tx|] eqn:Ex;
    try done.
  destruct (Z.leb_spec (ty - tx) 0); [done|].
  rewrite filter_cons, IH, !filter_cons.
  destruct (decide (timestamp y.2 = t)) as [Hy|Hy],
           (decide (timestamp x.2 = t)) as [Hx|Hx]; try done.
  rewrite Ey in Hy. rewrite Ex in Hx. subst t. injection Hx as ->. lia.
Qed.

Lemma js_sort_stable t l :
  filter (fun r : Z * snapshot => timestamp r.2 = t) (js_sort newest_first l)
  = filter (fun r : Z * snapshot => timestamp r.2 = t) l.
Proof.
  induction l as [|x l IH]; simpl; [done|].
  by rewrite sort_insert_stable, !filter_cons, IH.
Qed.

Lemma getAll_connected n w :
  connected w ->
  getAll n w
  = (Fulfilled (merge_sort by_key (map_to_list (records (snap_store n (disk w))))),
     w).
Proof.
  intros Hc. destruct (connected_getDB w Hc) as (p & Hg & Ha).
  unfold getAll, performTransaction. by rewrite Hg, Ha.
Qed.

Lemma indexed_getAll m :
  indexed m ->
  Forall (fun r : Z * snapshot => is_Some (timestamp r.2))
         (merge_sort by_key (map_to_list m)).
Proof.
  intros Hm. apply Forall_forall. intros [k r] Hin.
  rewrite merge_sort_Permutation in Hin. apply elem_of_map_to_list in Hin.
  by apply (Hm k).
Qed.

(** C6. On an open connection [getAllSavedStates] and
    [getAllSavedParking] return every record of their collection, and
    nothing stored is modified. When every record of the collection
    carries a numeric timestamp the list is ordered by timestamp from
    newest to oldest; records with the same timestamp follow each other
    in the order of their keys, so the order need not be strict. *)
Theorem saved_lists_newest_first (n : snap_store_name) (w : World) :
  connected w ->
  exists l,
    match n with
    | STORE_SAVED_STATES => getAllSavedStates w
    | STORE_SAVED_PARKING => getAllSavedParking w
    end = (Fulfilled l, w)
    /\ l ≡ₚ map_to_list (records (snap_store n (disk w)))
    /\ (indexed (records (snap_store n (disk w))) ->
        StronglySorted newer_or_same l
        /\ forall t,
             filter (fun r : Z * snapshot => timestamp r.2 = t) l
             = filter (fun r : Z * snapshot => timestamp r.2 = t)
                 (merge_sort by_key
                    (map_to_list (records (snap_store n (disk w)))))).
Proof.
  intros Hc.
  assert (Hg : match n with
               | STORE_SAVED_STATES => getAllSavedStates w
               | STORE_SAVED_PARKING => getAllSavedParking w
               end = getAllSaved n w) by (by destruct n).
  rewrite Hg. unfold getAllSaved. rewrite (getAll_connected n w Hc).
  eexists. split; [done|].
  split; [by rewrite js_sort_perm, merge_sort_Permutation|].
  intros Hm. split; [by apply js_sort_sorted, indexed_getAll|].
  intros t. apply js_sort_stable.
Qed.

Lemma saved_lists_newest_first_witness :
  let w := open_world (MkDatabase ∅ ∅ (MkAutoStore two_saves 3) empty_store) in
  exists l, getAllSavedStates w = (Fulfilled l, w)
    /\ fst <$> l = [2; 1].
Proof.
  intros w.
  destruct (saved_lists_newest_first STORE_SAVED_STATES w) as (l & H1 & _).
  - exists 0%nat. split; reflexivity.
  - exists l. split; [exact H1|].
    assert (Hl : Fulfilled l = (getAllSavedStates w).1) by (by rewrite H1).
    vm_compute in Hl. injection Hl as ->. reflexivity.
Defined.

(** Two saves within the same millisecond give two records with the
    same timestamp: the list returned is not strictly descending. And
    next to a record without a timestamp, as [addParking] can store one,
    the comparison function yields [NaN], which the sort takes for 0: an
    engine that sorts by insertion leaves the list as [getAll] gave it,
    and the record with timestamp 7 is listed after the one with
    timestamp 5. *)
Lemma saved_list_with_ties :
  (let w0 := open_world empty_database in
   let w1 := (saveState "a" "n" None 10 w0).2 in
   let w2 := (saveState "b" "n" None 10 w1).2 in
   exists l,
     getAllSavedStates w2 = (Fulfilled l, w2)
     /\ ~ StronglySorted strictly_newer l)
  /\ (let w := open_world (MkDatabase ∅ ∅ empty_store
                 (MkAutoStore {[ 1 := Snapshot "a" "" 5;
                                 2 := MkSnapshot "b" "" None;
                                 3 := Snapshot "c" "" 7 ]} 4)) in
      exists l,
        getAllSavedParking w = (Fulfilled l, w)
        /\ l.*2 = [Snapshot "a" "" 5; MkSnapshot "b" "" None; Snapshot "c" "" 7]
        /\ ~ StronglySorted newer_or_same l).
Proof.
  split.
  - intros w0 w1 w2. eexists. split; [reflexivity|].
    intros H. apply StronglySorted_inv in H as [_ H].
    apply Forall_inv in H. cbn in H. lia.
  - intros w. eexists. split; [reflexivity|]. split; [reflexivity|].
    intros H. apply StronglySorted_inv in H as [_ H].
    apply Forall_inv_tail, Forall_inv in H. cbn in H. lia.
Qed.

(** * sw.js *)

Section ServiceWorker.
Import Sw.

Lemma prefix_app (a b : string) : String.prefix a (a ++ b) = true.
Proof.
  induction a as [|c a IH]; simpl; [by destruct b|].
  destruct (Ascii.ascii_dec c c); [exact IH|done].
Qed.

Lemma caches_match_new_bucket url cs n :
  caches_match url (cs ++ [(n, ∅)]) = caches_match url cs.
Proof.
  induction cs as [|[n' b] cs IH].
  - cbn [caches_match app]. by rewrite lookup_empty.
  - cbn [caches_match app]. fold (@app (string * bucket)). by rewrite IH.
Qed.

Lemma caches_open_match pf n s url :
  caches_match url (caches (caches_open pf n s).2) = caches_match url (caches s).
Proof.
  unfold caches_open. destruct (open_ok pf); [|done].
  destruct (lookup_bucket n (caches s)); simpl; [done|].
  apply caches_match_new_bucket.
Qed.

Lemma caches_open_console pf n s :
  console (caches_open pf n s).2 = console s.
Proof.
  unfold caches_open. destruct (open_ok pf); [|done].
  by destruct (lookup_bucket n (caches s)).
Qed.

Lemma fetch_all_missing pf urls u :
  u ∈ urls ->
  fetch pf u = None \/ (exists r, fetch pf u = Some r /\ ok r = false) ->
  exists e, fetch_all pf urls = inl e.
Proof.
  induction urls as [|v urls IH]; [by intros ?%elem_of_nil|].
  intros Hin Hu. simpl. destruct (decide (v = u)) as [->|Hne].
  - destruct Hu as [-> | (r & -> & ->)]; by eexists.
  - apply elem_of_cons in Hin as [?|Hin]; [congruence|].
    destruct (IH Hin Hu) as [e He]. rewrite He.
    destruct (fetch pf v) as [r|]; [|by eexists].
    destruct (ok r); by eexists.
Qed.

Ltac last_line := apply elem_of_app; right; by left.

(** C3. The promise the install listener hands to [waitUntil] is always
    fulfilled, so the install step succeeds whatever happens to the
    manifest. When the cache cannot be opened or written, or an entry
    cannot be fetched with a status [cache.addAll] accepts, or two
    entries resolve to one URL, no entry at all is stored, the failure
    is caught and logged, and the worker installs with its cache
    unprimed. *)
Theorem install_swallows_failure (pf : Platform) (s : State) :
  (install pf s).1 = Fulfilled ()
  /\ (open_ok pf = false
      \/ put_ok pf = false
      \/ (exists u, u ∈ urlsToCache
                    /\ (fetch pf (resolve (base pf) u) = None
                        \/ exists r, fetch pf (resolve (base pf) u) = Some r
                                     /\ ok r = false))
      \/ ~ NoDup (resolve (base pf) <$> urlsToCache) ->
      "[ServiceWorker] Cache addAll failed:" ∈ console (install pf s).2
      /\ forall url,
           caches_match url (caches (install pf s).2)
           = caches_match url (caches s)).
Proof.
  unfold install. remember urlsToCache as urls eqn:Hurls. clear Hurls.
  unfold then_, catch_, console_log, cache_addAll, caches_open.
  cbn [fst snd caches console].
  set (requests := resolve (base pf) <$> urls).
  split.
  - destruct (open_ok pf); [|done].
    destruct (lookup_bucket CACHE_NAME (caches s));
      destruct (fetch_all pf requests); try done;
      destruct (bool_decide (NoDup requests)); try done;
      destruct (put_ok pf); done.
  - intros Hfail.
    assert (Hcase : open_ok pf = false \/ put_ok pf = false
                    \/ (exists e, fetch_all pf requests = inl e)
                    \/ ~ NoDup requests).
    { destruct Hfail as [?|[?|[(u & Hin & Hu)|?]]]; auto.
      right; right; left.
      eapply (fetch_all_missing pf requests (resolve (base pf) u)); [|done].
      by apply list_elem_of_fmap_2. }
    clear Hfail.
    destruct (open_ok pf) eqn:Hopen; cbn; [|split; [last_line|done]].
    destruct Hcase as [Hc|[Hput|[[e He]|Hdup]]]; [discriminate Hc| | |].
    + rewrite Hput.
      destruct (lookup_bucket CACHE_NAME (caches s));
        destruct (fetch_all pf requests);
        destruct (bool_decide (NoDup requests)); cbn;
        (split; [last_line|]); try done;
        intros url; apply caches_match_new_bucket.
    + rewrite He.
      destruct (lookup_bucket CACHE_NAME (caches s)); cbn;
        (split; [last_line|]); try done.
      intros url. apply caches_match_new_bucket.
    + rewrite (bool_decide_eq_false_2 _ Hdup).
      destruct (lookup_bucket CACHE_NAME (caches s));
        destruct (fetch_all pf requests); cbn;
        (split; [last_line|]); try done;
        intros url; apply caches_match_new_bucket.
Qed.

Lemma install_swallows_failure_witness :
  (install offline (MkState [] [])).1 = Fulfilled ()
  /\ caches_match "https://app.example/index.html"
       (caches (install offline (MkState [] [])).2)
     = None.
Proof.
  destruct (install_swallows_failure offline (MkState [] [])) as [H1 H2].
  split; [exact H1|].
  assert (Hin : "./index.html" ∈ urlsToCache) by (right; left).
  destruct H2 as [_ H3].
  { right; right; left. exists "./index.html". split; [exact Hin|]. by left. }
  rewrite H3. reflexivity.
Defined.

(** With the network down no manifest entry can be fetched, and the
    install step still succeeds. *)
Lemma install_succeeds_offline :
  (install offline (MkState [] [])).1 = Fulfilled ()
  /\ ~ install_all_or_nothing offline (MkState [] []).
Proof.
  split; [reflexivity|]. intros H.
  destruct H as [e He]; [|discriminate He].
  exists "./index.html". split; [set_solver|reflexivity].
Qed.

(** The fetch listener leaves alone exactly the requests whose URL
    starts with neither of the two strings. *)
Lemma fetch_listener_ignores pf origin url s :
  startsWith url origin = false -> startsWith url TAILWIND = false ->
  fetch_listener pf origin url s = (NotIntercepted, s).
Proof. unfold fetch_listener. by intros -> ->. Qed.

Lemma fetch_listener_responds pf origin url s :
  startsWith url origin = true \/ startsWith url TAILWIND = true ->
  exists r, (fetch_listener pf origin url s).1 = RespondWith r.
Proof.
  unfold fetch_listener. intros H.
  assert (negb (startsWith url origin) && negb (startsWith url TAILWIND)
          = false) as ->.
  { destruct H as [-> | ->]; [done|]. apply andb_false_r. }
  destruct (catch_ _ _ s) as [[|r|e] s']; by eexists.
Qed.

(** Requests to the application's origin or to the Tailwind host are
    never passed through. *)
Lemma fetch_listener_handles_own pf origin u s :
  origin_of u = origin \/ origin_of u = TAILWIND ->
  exists r, (fetch_listener pf origin (href u) s).1 = RespondWith r.
Proof.
  intros H. apply fetch_listener_responds. unfold startsWith, href.
  destruct H as [<- | <-]; [left|right]; apply prefix_app.
Qed.

(** C5. The test on the request is a test on prefixes of the URL, not on
    its origin: a request to the host
    [cdn.tailwindcss.com.evil.example], whose origin is neither the
    application's nor Tailwind's, is not passed through; the listener
    answers it, and stores its opaque response in the cache. *)
Theorem fetch_listener_prefix_match :
  let r := fetch_listener opaque_network app_origin (href lookalike)
             (MkState [] []) in
  origin_of lookalike <> app_origin
  /\ origin_of lookalike <> TAILWIND
  /\ r.1 = RespondWith (Some opaque_reply)
  /\ caches_match (href lookalike) (caches r.2) = Some opaque_reply.
Proof. repeat split; done. Qed.

End ServiceWorker.

(** * The CRUD layer on an open connection *)

Lemma performTransaction_connected {S A} (r : StoreRef S) mode
    (act : S -> request_result A * S) w :
  connected w ->
  performTransaction r mode act w
  = match act (sel r (disk w)) with
    | (ReqSuccess a, s') =>
        (Fulfilled a,
         match mode with
         | readwrite => set_disk (upd r s' (disk w)) w
         | readonly => w
         end)
    | (ReqError e, _) => (Rejected e, w)
    end.
Proof.
  intros Hc. destruct (connected_getDB w Hc) as (p & Hg & Ha).
  unfold performTransaction. rewrite Hg, Ha.
  destruct (act (sel r (disk w))) as [[a|e] s']; [|done]. by destruct mode.
Qed.

Lemma kv_store_set_other n n' m d :
  n <> n' -> kv_store n' (set_kv_store n m d) = kv_store n' d.
Proof. by destruct n, n'. Qed.

Lemma kv_store_set_id n d : set_kv_store n (kv_store n d) d = d.
Proof. by destruct n, d. Qed.

Lemma snap_store_set_kv n m d k :
  snap_store k (set_kv_store n m d) = snap_store k d.
Proof. by destruct n, k. Qed.

Lemma kv_store_set_snap n s d k :
  kv_store k (set_snap_store n s d) = kv_store k d.
Proof. by destruct n, k. Qed.

Lemma get_inline_connected n k w :
  connected w -> get_inline n k w = (Fulfilled (kv_store n (disk w) !! k), w).
Proof.
  intros Hc. unfold get_inline. by rewrite performTransaction_connected.
Qed.

(** X1. On an open connection, adding an item under a key the store does
    not hold succeeds with that key; a [get] of the key then returns the
    item, and a [get] of any other key returns what it returned before. *)
Theorem add_then_get (n : kv_store_name) (item : string * string) (w : World) :
  connected w ->
  kv_store n (disk w) !! item.1 = None ->
  let w' := (add_inline n item w).2 in
  (add_inline n item w).1 = Fulfilled item.1
  /\ get_inline n item.1 w' = (Fulfilled (Some item.2), w')
  /\ forall k, k <> item.1 -> (get_inline n k w').1 = (get_inline n k w).1.
Proof.
  intros Hc Hk w'. subst w'. unfold add_inline.
  rewrite (performTransaction_connected _ _ _ w Hc). cbn [sel upd kv_ref].
  unfold store_add_inline. rewrite Hk. cbn [fst snd].
  split; [done|].
  rewrite !get_inline_connected by (done || by apply connected_set_disk).
  cbn [disk set_disk]. rewrite kv_store_set.
  split; [by rewrite lookup_insert_eq|].
  intros k Hne.
  rewrite !get_inline_connected by (done || by apply connected_set_disk).
  cbn [fst disk set_disk]. by rewrite kv_store_set, lookup_insert_ne.
Qed.

Lemma add_then_get_witness :
  let w := open_world empty_database in
  getCar "c1" (addCar ("c1", "van") w).2
  = (Fulfilled (Some "van"), (addCar ("c1", "van") w).2).
Proof.
  intros w.
  destruct (add_then_get STORE_CARS ("c1", "van") w) as (_ & H & _).
  - exists 0%nat. split; reflexivity.
  - reflexivity.
  - exact H.
Defined.

(** X2. On an open connection, adding an item whose key the store
    already holds rejects with [ConstraintError] and changes nothing:
    the record stored under the key stays. *)
Theorem add_existing_key_rejected (n : kv_store_name) (item : string * string)
    (w : World) :
  connected w ->
  is_Some (kv_store n (disk w) !! item.1) ->
  add_inline n item w = (Rejected ConstraintError, w).
Proof.
  intros Hc [x Hx]. unfold add_inline.
  rewrite (performTransaction_connected _ _ _ w Hc). cbn [sel upd kv_ref].
  unfold store_add_inline. by rewrite Hx.
Qed.

Lemma add_existing_key_rejected_witness :
  let w := open_world (MkDatabase {["Sato" := "x"]} ∅ empty_store empty_store) in
  addFamily ("Sato", "y") w = (Rejected ConstraintError, w).
Proof.
  intros w. apply (add_existing_key_rejected STORE_FAMILIES ("Sato", "y") w).
  - exists 0%nat. split; reflexivity.
  - exists "x". reflexivity.
Defined.

Lemma filter_key_map_to_list (m : gmap string string) k v
    (l : list (string * string)) :
  l ≡ₚ map_to_list m -> m !! k = Some v ->
  filter (fun kv : string * string => kv.1 = k) l = [(k, v)].
Proof.
  intros Hl Hk. apply Permutation_singleton_r.
  apply NoDup_Permutation.
  - apply NoDup_filter. rewrite Hl. apply NoDup_map_to_list.
  - apply NoDup_singleton.
  - intros [k' v']. rewrite list_elem_of_filter, Hl, elem_of_map_to_list,
      list_elem_of_singleton. simpl. split.
    + intros [-> Hv]. rewrite Hk in Hv. by injection Hv as ->.
    + by intros [= -> ->].
Qed.

Lemma getAll_inline_connected n w :
  connected w ->
  getAll_inline n w
  = (Fulfilled (merge_sort by_string_key (map_to_list (kv_store n (disk w)))), w).
Proof.
  intros Hc. unfold getAll_inline. by rewrite performTransaction_connected.
Qed.

(** X3. [update] is an upsert: on an open connection it succeeds whether
    or not the key is present; afterwards [get] returns the new item,
    [getAll] lists exactly one record with that key, namely the new
    item, and the records under other keys are unchanged. *)
Theorem update_upserts (n : kv_store_name) (item : string * string) (w : World) :
  connected w ->
  let w' := (update_inline n item w).2 in
  (update_inline n item w).1 = Fulfilled item.1
  /\ get_inline n item.1 w' = (Fulfilled (Some item.2), w')
  /\ (exists l, getAll_inline n w' = (Fulfilled l, w')
                /\ filter (fun kv : string * string => kv.1 = item.1) l = [item])
  /\ forall k, k <> item.1 ->
       kv_store n (disk w') !! k = kv_store n (disk w) !! k.
Proof.
  intros Hc w'. subst w'. unfold update_inline.
  rewrite (performTransaction_connected _ _ _ w Hc). cbn [sel upd kv_ref].
  unfold store_put_inline. cbn [fst snd].
  assert (Hc' : forall d, connected (set_disk d w))
    by (intros; by apply connected_set_disk).
  split; [done|].
  rewrite get_inline_connected, getAll_inline_connected by done.
  cbn [disk set_disk]. rewrite kv_store_set.
  split; [by rewrite lookup_insert_eq|]. split.
  - eexists. split; [done|]. destruct item as [k v].
    apply (filter_key_map_to_list (<[k := v]> (kv_store n (disk w)))).
    + apply merge_sort_Permutation.
    + apply lookup_insert_eq.
  - intros k Hne. by rewrite lookup_insert_ne.
Qed.

Lemma update_upserts_witness :
  let w := open_world (MkDatabase {["Sato" := "x"]} ∅ empty_store empty_store) in
  getFamily "Sato" (updateFamily ("Sato", "y") w).2
  = (Fulfilled (Some "y"), (updateFamily ("Sato", "y") w).2).
Proof.
  intros w.
  destruct (update_upserts STORE_FAMILIES ("Sato", "y") w) as (_ & H & _).
  - exists 0%nat. split; reflexivity.
  - exact H.
Defined.

Lemma units_leb_cons x a y b :
  units_leb (x :: a) (y :: b) = true <-> x < y \/ (x = y /\ units_leb a b = true).
Proof.
  cbn [units_leb]. by rewrite orb_true_iff, andb_true_iff, Z.ltb_lt, Z.eqb_eq.
Qed.

Lemma units_leb_total a : forall b,
  units_leb a b = true \/ units_leb b a = true.
Proof.
  induction a as [|x a IH]; intros [|y b]; auto.
  rewrite !units_leb_cons.
  destruct (Z.lt_trichotomy x y) as [?|[->|?]]; [by left; left| |by right; left].
  destruct (IH b); [left|right]; by right.
Qed.

Lemma units_leb_trans a : forall b c,
  units_leb a b = true -> units_leb b c = true -> units_leb a c = true.
Proof.
  induction a as [|x a IH]; intros [|y b] [|z c]; try done.
  rewrite !units_leb_cons. intros [?|[-> Hab]] [?|[-> Hbc]];
    [left; lia|by left|by left|].
  right. split; [done|]. by eapply IH.
Qed.

Global Instance by_string_key_trans : Transitive by_string_key.
Proof. intros a b c. unfold by_string_key. apply units_leb_trans. Qed.

Global Instance by_string_key_total : Total by_string_key.
Proof. intros a b. unfold by_string_key. apply units_leb_total. Qed.

(** X23. On an open connection [getAll] returns every record of the
    store, each once, in ascending order of key, and modifies nothing.
    String keys are compared by UTF-16 code unit, which is not the
    order of code points: a key that starts with a character above
    U+FFFF comes before one that starts with U+FF5E. *)
Theorem getAll_lists_in_key_order (n : kv_store_name) (w : World) :
  connected w ->
  exists l,
    getAll_inline n w = (Fulfilled l, w)
    /\ l ≡ₚ map_to_list (kv_store n (disk w))
    /\ NoDup l.*1
    /\ StronglySorted by_string_key l.
Proof.
  intros Hc. rewrite (getAll_inline_connected n w Hc). eexists.
  split; [done|]. split; [apply merge_sort_Permutation|]. split.
  - rewrite merge_sort_Permutation. apply NoDup_fst_map_to_list.
  - apply StronglySorted_merge_sort; apply _.
Qed.

Lemma getAll_lists_in_key_order_witness :
  let wave := String "239" (String "189" (String "158" "")) in
  let face := String "240" (String "159" (String "152" (String "128" ""))) in
  let w := open_world (MkDatabase {[ wave := "a"; face := "b" ]} ∅
                                  empty_store empty_store) in
  exists l, getAllFamilies w = (Fulfilled l, w) /\ l = [(face, "b"); (wave, "a")].
Proof.
  intros wave face w.
  destruct (getAll_lists_in_key_order STORE_FAMILIES w) as (l & H1 & _).
  - exists 0%nat. split; reflexivity.
  - exists l. split; [exact H1|].
    assert (Hl : Fulfilled l = (getAllFamilies w).1)
      by (unfold getAllFamilies; by rewrite H1).
    vm_compute in Hl. injection Hl as ->. reflexivity.
Defined.

(** X4. [remove] never fails on an open connection: afterwards [get] of
    the key returns nothing, the records under other keys are unchanged,
    and removing a key the store does not hold leaves the database as it
    was. *)
Theorem remove_deletes (n : kv_store_name) (key : string) (w : World) :
  connected w ->
  let w' := (remove_inline n key w).2 in
  (remove_inline n key w).1 = Fulfilled ()
  /\ get_inline n key w' = (Fulfilled None, w')
  /\ (forall k, k <> key ->
        kv_store n (disk w') !! k = kv_store n (disk w) !! k)
  /\ (kv_store n (disk w) !! key = None -> disk w' = disk w).
Proof.
  intros Hc w'. subst w'. unfold remove_inline.
  rewrite (performTransaction_connected _ _ _ w Hc). cbn [sel upd kv_ref].
  unfold store_delete_inline. cbn [fst snd].
  split; [done|].
  rewrite get_inline_connected by (by apply connected_set_disk).
  cbn [disk set_disk]. rewrite kv_store_set.
  split; [by rewrite lookup_delete_eq|]. split.
  - intros k Hne. by rewrite lookup_delete_ne.
  - intros Hk. rewrite delete_id by done. apply kv_store_set_id.
Qed.

Lemma remove_deletes_witness :
  let w := open_world (MkDatabase {["Sato" := "x"]} ∅ empty_store empty_store) in
  getFamily "Sato" (deleteFamily "Sato" w).2
  = (Fulfilled None, (deleteFamily "Sato" w).2)
  /\ disk (deleteFamily "Abe" w).2 = disk w.
Proof.
  intros w. split.
  - destruct (remove_deletes STORE_FAMILIES "Sato" w) as (_ & H & _).
    + exists 0%nat. split; reflexivity.
    + exact H.
  - destruct (remove_deletes STORE_FAMILIES "Abe" w) as (_ & _ & _ & H).
    + exists 0%nat. split; reflexivity.
    + apply H. reflexivity.
Defined.



Lemma run_adds_fresh items : forall work,
  NoDup items.*1 ->
  (forall item, item ∈ items -> work !! item.1 = None) ->
  exists work', (run_adds work items).2 = Some work'.
Proof.
  induction items as [|item items IH]; intros work Hnd Hfresh; simpl.
  - by eexists.
  - rewrite fmap_cons in Hnd. apply NoDup_cons in Hnd as [Hni Hnd].
    unfold store_add_inline. rewrite (Hfresh item) by (by left). simpl.
    destruct (IH (<[item.1:=item.2]> work) Hnd) as [work' Hw].
    { intros it Hit. rewrite lookup_insert_ne; [apply Hfresh; by right|].
      intros Heq. apply Hni. rewrite Heq. by apply list_elem_of_fmap_2. }
    destruct (run_adds (<[item.1:=item.2]> work) items) as [ps r].
    simpl in *. by exists work'.
Qed.

(** X6. On an open connection [bulkAdd] succeeds exactly when every item
    has a key, the keys are distinct and none is in the store; it then
    stores every item and changes no other key. An empty list
    succeeds. *)
Theorem bulkAdd_succeeds_iff (n : kv_store_name)
    (items : list (option string * string)) (w : World) :
  connected w ->
  let w' := (bulkAdd n items w).2 in
  ((bulkAdd n items w).1 = Fulfilled ()
   <-> (forall item, item ∈ items -> is_Some item.1)
       /\ NoDup (placed items).*1
       /\ forall item, item ∈ placed items ->
            kv_store n (disk w) !! item.1 = None)
  /\ ((bulkAdd n items w).1 = Fulfilled () ->
      (forall item, item ∈ placed items ->
         kv_store n (disk w') !! item.1 = Some item.2)
      /\ (forall k, k ∉ (placed items).*1 ->
            kv_store n (disk w') !! k = kv_store n (disk w) !! k)).
Proof.
  intros Hc w'. subst w'.
  destruct ((run_adds (kv_store n (disk w)) (placed items)).2)
    as [work'|] eqn:E.
  - rewrite (bulkAdd_committed _ _ _ _ Hc E).
    destruct (run_adds_all_fulfilled _ _ _ E) as (_ & _ & H3 & H4 & H5).
    cbn [fst snd disk set_disk]. rewrite kv_store_set.
    case_bool_decide as Hall.
    + split.
      * split; [intros _|done]. split; [by apply Forall_forall|].
        split; [done|]. intros item Hin. by apply H5.
      * intros _. split; [|exact H3]. intros item Hin. by apply H5.
    + split; [|done]. split; [done|]. intros (Hk & _).
      destruct Hall. by apply Forall_forall.
  - destruct (bulkAdd_aborted n items w Hc E) as [e ->]. cbn [fst snd].
    split; [|done]. split; [done|]. intros (_ & Hnd & Hfresh).
    destruct (run_adds_fresh (placed items) (kv_store n (disk w)) Hnd Hfresh)
      as [work' Hw]. congruence.
Qed.

Lemma bulkAdd_succeeds_iff_witness :
  let w := open_world (MkDatabase {["Sato" := "x"]} ∅ empty_store empty_store) in
  let items := [(Some "Abe", "a"); (Some "Ito", "c")] in
  (bulkAddFamilies items w).1 = Fulfilled ()
  /\ families (disk (bulkAddFamilies items w).2) !! "Ito" = Some "c"
  /\ families (disk (bulkAddFamilies items w).2) !! "Sato" = Some "x".
Proof.
  intros w items.
  destruct (bulkAdd_succeeds_iff STORE_FAMILIES items w) as [Hiff Hall].
  - exists 0%nat. split; reflexivity.
  - assert (Hok : (bulkAddFamilies items w).1 = Fulfilled ()).
    { apply Hiff. split; [|split].
      - intros item Hin.
        apply elem_of_cons in Hin as [->|Hin]; [by eexists|].
        apply elem_of_cons in Hin as [->|Hin]; [by eexists|].
        by apply elem_of_nil in Hin.
      - compute_done.
      - intros item Hin.
        apply elem_of_cons in Hin as [->|Hin]; [reflexivity|].
        apply elem_of_cons in Hin as [->|Hin]; [reflexivity|].
        by apply elem_of_nil in Hin. }
    split; [exact Hok|]. destruct (Hall Hok) as [H1 H2]. split.
    + apply (H1 ("Ito", "c")). right; left.
    + etransitivity; [apply (H2 "Sato"); compute_done|reflexivity].
Defined.

(** * The schema upgrade *)

Lemma create_if_missing_lookup n d db k :
  create_if_missing n d db !! k
  = match db !! k with
    | Some x => Some x
    | None => if bool_decide (k = n) then Some d else None
    end.
Proof.
  unfold create_if_missing. destruct (db !! n) eqn:E.
  - destruct (db !! k) eqn:Ek; [done|]. case_bool_decide; [|done].
    subst. congruence.
  - destruct (decide (k = n)) as [->|Hne].
    + rewrite lookup_insert_eq, E. by rewrite bool_decide_eq_true_2.
    + rewrite lookup_insert_ne by done. destruct (db !! k); [done|].
      by rewrite bool_decide_eq_false_2.
Qed.

Lemma onupgradeneeded_lookup db k :
  onupgradeneeded db !! k
  = match db !! k with
    | Some d => Some d
    | None => declared k
    end.
Proof.
  unfold onupgradeneeded, declared. rewrite !create_if_missing_lookup.
  destruct (db !! k); [done|].
  repeat case_bool_decide; subst; done.
Qed.

(** X7. The schema upgrade only adds: every object store that exists
    keeps its declaration, even one that differs from the current one
    (an old [savedParking] without the [name] index stays without it);
    each of the four stores that is missing is created with its
    declared key path, key generator and indexes; no other store
    appears. Running the upgrade again changes nothing. *)
Theorem upgrade_only_adds (db : gmap string store_decl) :
  (forall n,
     onupgradeneeded db !! n
     = match db !! n with
       | Some d => Some d
       | None => declared n
       end)
  /\ (forall n, n ∈ store_names -> is_Some (onupgradeneeded db !! n))
  /\ onupgradeneeded (onupgradeneeded db) = onupgradeneeded db.
Proof.
  split; [apply onupgradeneeded_lookup|]. split.
  - intros n Hn. rewrite onupgradeneeded_lookup.
    destruct (db !! n); [by eexists|].
    unfold store_names in Hn. unfold declared.
    repeat (apply elem_of_cons in Hn as [->|Hn]; [by eexists|]).
    by apply elem_of_nil in Hn.
  - apply map_eq. intros k. rewrite !onupgradeneeded_lookup.
    by destruct (db !! k); [|destruct (declared k)].
Qed.

Lemma upgrade_only_adds_witness :
  let old_parking := StoreDecl "id" true [IndexDecl "timestamp" "timestamp" false] in
  let db : gmap string store_decl := {[ "savedParking" := old_parking ]} in
  onupgradeneeded db !! "savedParking" = Some old_parking
  /\ is_Some (onupgradeneeded db !! "cars").
Proof.
  intros old_parking db.
  destruct (upgrade_only_adds db) as (H1 & H2 & _). split.
  - rewrite H1. reflexivity.
  - apply H2. compute_done.
Defined.

(** * clearDatabase and the events of an open request *)

(** X8. [clearDatabase] on a page whose memoized open has settled (or
    that has none) forgets the connection whatever the delete request
    answers: the next [getDB] issues a new open. A successful delete
    fulfils the call and leaves an empty database; a blocked delete
    rejects with [BlockedError] and a failed one with [DeleteFailed],
    and neither has removed any data when the call settles. While the
    memoized open is still pending the call waits and changes
    nothing. *)
Theorem clearDatabase_outcomes (del : delete_event) (w : World) :
  let r := clearDatabase del w in
  match dbPromise w with
  | Some p => await p w = Pending -> r = (Pending, w)
  | None => True
  end
  /\ ((forall p, dbPromise w = Some p -> await p w <> Pending) ->
      dbPromise r.2 = None
      /\ opens (getDB r.2).2 = S (opens w)
      /\ r.1 = match del with
               | delete_onsuccess => Fulfilled ()
               | delete_onerror => Rejected DeleteFailed
               | delete_onblocked => Rejected BlockedError
               end
      /\ disk r.2 = match del with
                    | delete_onsuccess => empty_database
                    | _ => disk w
                    end).
Proof.
  intros r. subst r. unfold clearDatabase. split.
  - destruct (dbPromise w) as [p|]; [|done]. by intros ->.
  - intros Hs. destruct (dbPromise w) as [p|] eqn:Ep.
    + specialize (Hs p eq_refl).
      destruct (await p w); [done| |]; destruct del; cbn; done.
    + destruct del; cbn; unfold getDB; cbn; rewrite Ep; done.
Qed.

Lemma clearDatabase_outcomes_witness :
  let w := open_world (MkDatabase {["Sato" := "x"]} ∅ empty_store empty_store) in
  (clearDatabase delete_onblocked w).1 = Rejected BlockedError
  /\ dbPromise (clearDatabase delete_onblocked w).2 = None
  /\ families (disk (clearDatabase delete_onblocked w).2) !! "Sato" = Some "x"
  /\ clearDatabase delete_onsuccess initial_world
     = (Fulfilled (), initial_world).
Proof.
  intros w.
  destruct (clearDatabase_outcomes delete_onblocked w) as [_ H].
  destruct H as (H1 & _ & H3 & H4).
  { intros p [= <-]. discriminate. }
  split; [exact H3|]. split; [exact H1|]. split; [by rewrite H4|].
  reflexivity.
Defined.

Lemma deliver_all_heap p evs : forall w,
  heap (deliver_all p evs w)
  = alter (fun s => foldl (fun s ev => settle_open ev s) s evs) p (heap w).
Proof.
  induction evs as [|ev evs IH]; intros w.
  - symmetry. by apply list_alter_id.
  - change (deliver_all p (ev :: evs) w)
      with (deliver_all p evs (deliver_open p ev w)).
    rewrite IH. cbn [deliver_open heap foldl].
    by rewrite list_alter_alter_eq.
Qed.

Lemma settle_all_settled evs : forall s,
  Promise.settled s = true ->
  foldl (fun s ev => settle_open ev s) s evs = s.
Proof.
  induction evs as [|ev evs IH]; intros s Hs; simpl; [done|].
  rewrite settle_open_settled by done. by apply IH.
Qed.

(** X9. The first event of an open request decides the connection: after
    a first [getDB] on a page without a memoized promise, whatever
    events the request delivers, the promise is settled as the first
    event says and the later ones change nothing. In particular an open
    that was reported blocked stays rejected when it later succeeds. *)
Theorem first_open_event_decides (w : World) (ev : open_event)
    (evs : list open_event) :
  dbPromise w = None ->
  let p := (getDB w).1 in
  let w' := deliver_all p (ev :: evs) (getDB w).2 in
  await p w' = settle_open ev Pending
  /\ getDB w' = (p, w')
  /\ opens w' = S (opens w).
Proof.
  intros Hn p w'. subst p w'. rewrite (getDB_fresh w Hn). cbn [fst snd].
  split; [|split].
  - unfold await. rewrite deliver_all_heap. cbn [heap].
    rewrite list_lookup_alter_eq, lookup_app_r, Nat.sub_diag by done.
    cbn. apply settle_all_settled. by destruct ev.
  - apply getDB_memo.
    generalize (ev :: evs). intros l.
    set (w0 := MkWorld _ _ _ _).
    assert (H : forall l w1, dbPromise (deliver_all (length (heap w)) l w1)
                             = dbPromise w1).
    { clear. induction l as [|e l IH]; intros w1; [done|].
      change (deliver_all (length (heap w)) (e :: l) w1)
        with (deliver_all (length (heap w)) l
                (deliver_open (length (heap w)) e w1)).
      by rewrite IH. }
    by rewrite H.
  - generalize (ev :: evs). intros l.
    set (w0 := MkWorld _ _ _ _).
    assert (H : forall l w1, opens (deliver_all (length (heap w)) l w1)
                             = opens w1).
    { clear. induction l as [|e l IH]; intros w1; [done|].
      change (deliver_all (length (heap w)) (e :: l) w1)
        with (deliver_all (length (heap w)) l
                (deliver_open (length (heap w)) e w1)).
      by rewrite IH. }
    by rewrite H.
Qed.

Lemma first_open_event_decides_witness :
  let p := (getDB initial_world).1 in
  await p (deliver_all p [open_onblocked; open_onsuccess]
             (getDB initial_world).2)
  = Rejected OpenBlocked.
Proof.
  intros p.
  destruct (first_open_event_decides initial_world open_onblocked
              [open_onsuccess] eq_refl) as [H _].
  exact H.
Defined.

(** * Snapshot stores: keys, records and the other stores *)

Lemma keys_below_insert s k x g :
  keys_below s -> keyGen s <= g -> Z.min k MAX_GENERATED_KEY < g ->
  keys_below (MkAutoStore (<[k := x]> (records s)) g).
Proof.
  intros H Hg Hk j [y Hy]. cbn in *.
  apply lookup_insert_Some in Hy as [[<- _]|[_ Hy]]; [done|].
  assert (Z.min j MAX_GENERATED_KEY < keyGen s) by (apply H; by eexists). lia.
Qed.

Lemma bump_spec k g :
  g <= bump k g /\ Z.min k MAX_GENERATED_KEY < bump k g.
Proof. unfold bump. cbn zeta. case_bool_decide; lia. Qed.

Lemma do_op_invariant n op w :
  connected w ->
  keys_below (snap_store n (disk w)) ->
  connected (do_op n op w)
  /\ keys_below (snap_store n (disk (do_op n op w)))
  /\ keyGen (snap_store n (disk w)) <= keyGen (snap_store n (disk (do_op n op w))).
Proof.
  intros Hc Hk.
  assert (Hgen : forall item,
            let s := snap_store n (disk w) in
            keyGen s <= MAX_GENERATED_KEY ->
            let w' := set_disk (set_snap_store n
                        (MkAutoStore (<[keyGen s := item]> (records s))
                                     (keyGen s + 1)) (disk w)) w in
            connected w'
            /\ keys_below (snap_store n (disk w'))
            /\ keyGen s <= keyGen (snap_store n (disk w'))).
  { intros item s Hmax w'. subst w'. cbn [disk set_disk].
    rewrite snap_store_set. cbn [keyGen].
    split; [by apply connected_set_disk|]. split; [|lia].
    apply keys_below_insert; (done || lia). }
  destruct op as [id item|id item|key| |data nm limit now]; cbn [do_op].
  - unfold add_keyed. rewrite (performTransaction_connected _ _ _ w Hc).
    cbn [sel upd snap_ref]. destruct id as [k|]; cbn [store_add_keyed].
    + destruct (records (snap_store n (disk w)) !! k) eqn:Ek;
        cbn [fst snd]; [repeat split; (done || lia)|].
      cbn [disk set_disk]. rewrite snap_store_set. cbn [keyGen].
      destruct (bump_spec k (keyGen (snap_store n (disk w)))).
      split; [by apply connected_set_disk|]. split; [|done].
      by apply keys_below_insert.
    + unfold store_add. case_bool_decide as Hmax;
        [cbn [snd]; repeat split; (done || lia)|].
      rewrite (keys_below_fresh _ Hk) by lia. cbn [fst snd].
      apply Hgen. lia.
  - unfold update. rewrite (performTransaction_connected _ _ _ w Hc).
    cbn [sel upd snap_ref]. destruct id as [k|]; cbn [store_put].
    + cbn [fst snd disk set_disk]. rewrite snap_store_set. cbn [keyGen].
      destruct (bump_spec k (keyGen (snap_store n (disk w)))).
      split; [by apply connected_set_disk|]. split; [|done].
      by apply keys_below_insert.
    + case_bool_decide as Hmax; [cbn [snd]; repeat split; (done || lia)|].
      cbn [fst snd]. apply Hgen. lia.
  - unfold remove. rewrite (performTransaction_connected _ _ _ w Hc).
    cbn [sel upd snap_ref store_delete fst snd disk set_disk].
    rewrite snap_store_set. cbn [keyGen].
    split; [by apply connected_set_disk|]. split; [|lia].
    intros j [y Hy]. cbn in *. apply lookup_delete_Some in Hy as [_ Hy].
    apply Hk. by eexists.
  - unfold clearStore. rewrite (performTransaction_connected _ _ _ w Hc).
    cbn [sel upd snap_ref store_clear fst snd disk set_disk].
    rewrite snap_store_set. cbn [keyGen].
    split; [by apply connected_set_disk|]. split; [|lia].
    intros j [y Hy]. cbn in Hy. by rewrite lookup_empty in Hy.
  - destruct (decide (keyGen (snap_store n (disk w)) > MAX_GENERATED_KEY))
      as [Hmax|Hmax].
    + rewrite saveSnapshot_exhausted by done. repeat split; (done || lia).
    + rewrite (saveSnapshot_connected _ _ _ _ _ _ Hc) by
        (lia || (apply keys_below_fresh; (done || lia))).
      cbn [snd disk set_disk]. rewrite snap_store_set. cbn [keyGen].
      split; [by apply connected_set_disk|]. split; [|lia].
      by apply keys_below_saved.
Qed.

(** X10. Through any sequence of adds and updates (with or without an
    explicit id), removes, clears and saves on an open connection, the
    key generator of a snapshot store never decreases and stays above
    the keys in use, up to the largest key it can hand out. So the add
    of a [saveState] / [saveParking] that follows never collides with a
    stored record: the save completes, unless the generator is used up,
    and then it is rejected with [ConstraintError] (an [updateParking]
    under the id 2^53 uses the generator up). *)
Theorem key_generator_stays_ahead (n : snap_store_name) (ops : list snap_op)
    (w : World) :
  connected w ->
  keys_below (snap_store n (disk w)) ->
  let w' := run_ops n ops w in
  keys_below (snap_store n (disk w'))
  /\ keyGen (snap_store n (disk w)) <= keyGen (snap_store n (disk w'))
  /\ forall data nm limit now,
       (saveSnapshot n data nm limit now w').1
       = if bool_decide (keyGen (snap_store n (disk w')) > MAX_GENERATED_KEY)
         then Rejected ConstraintError
         else Fulfilled ().
Proof.
  intros Hc Hk w'. subst w'.
  assert (H : connected (run_ops n ops w)
              /\ keys_below (snap_store n (disk (run_ops n ops w)))
              /\ keyGen (snap_store n (disk w))
                 <= keyGen (snap_store n (disk (run_ops n ops w)))).
  { revert w Hc Hk. induction ops as [|op ops IH]; intros w Hc Hk.
    - repeat split; (done || cbn; lia).
    - destruct (do_op_invariant n op w Hc Hk) as (H1 & H2 & H3).
      destruct (IH _ H1 H2) as (H4 & H5 & H6).
      change (run_ops n (op :: ops) w) with (run_ops n ops (do_op n op w)).
      repeat split; (done || lia). }
  destruct H as (H1 & H2 & H3). split; [done|]. split; [done|].
  intros data nm limit now. case_bool_decide as Hmax.
  - by rewrite saveSnapshot_exhausted.
  - by rewrite (saveSnapshot_connected _ _ _ _ _ _ H1) by
      (lia || (apply keys_below_fresh; (done || lia))).
Qed.

Lemma key_generator_stays_ahead_witness :
  let w := open_world empty_database in
  let ops := [OpAdd (Some 7) (Snapshot "imported" "" 5); OpRemove 7; OpClear] in
  let last_key := [OpUpdate (Some 9007199254740992) (Snapshot "edited" "" 5)] in
  (saveParking "p" "n" None 9 (run_ops STORE_SAVED_PARKING ops w)).1
  = Fulfilled ()
  /\ keyGen (savedParking (disk (run_ops STORE_SAVED_PARKING ops w))) = 8
  /\ keyGen (savedParking (disk (run_ops STORE_SAVED_PARKING last_key w)))
     = 9007199254740993
  /\ (saveParking "p" "n" None 9 (run_ops STORE_SAVED_PARKING last_key w)).1
     = Rejected ConstraintError.
Proof.
  intros w ops last_key.
  assert (Hc : connected w) by (exists 0%nat; split; reflexivity).
  assert (Hk : keys_below (snap_store STORE_SAVED_PARKING (disk w))).
  { intros k [x Hx]. cbn in Hx. by rewrite lookup_empty in Hx. }
  destruct (key_generator_stays_ahead STORE_SAVED_PARKING ops w Hc Hk)
    as (_ & _ & H3).
  destruct (key_generator_stays_ahead STORE_SAVED_PARKING last_key w Hc Hk)
    as (_ & _ & H3').
  split; [|split; [|split]].
  - unfold saveParking. rewrite H3. reflexivity.
  - reflexivity.
  - reflexivity.
  - unfold saveParking. rewrite H3'. reflexivity.
Defined.

Lemma get_connected n k w :
  connected w -> get n k w = (Fulfilled (records (snap_store n (disk w)) !! k), w).
Proof. intros Hc. unfold get. by rewrite performTransaction_connected. Qed.

(** X11. On an open connection, [update] of a snapshot under an explicit
    id stores it whether or not the id was in use, and [get] of that id
    returns it; [remove] of the id makes [get] return nothing; neither
    touches the records under other ids. *)
Theorem update_get_remove (n : snap_store_name) (k : Z) (item : snapshot)
    (w : World) :
  connected w ->
  let w1 := (update n (Some k) item w).2 in
  let w2 := (remove n k w1).2 in
  (update n (Some k) item w).1 = Fulfilled k
  /\ get n k w1 = (Fulfilled (Some item), w1)
  /\ (remove n k w1).1 = Fulfilled ()
  /\ get n k w2 = (Fulfilled None, w2)
  /\ forall j, j <> k ->
       records (snap_store n (disk w1)) !! j = records (snap_store n (disk w)) !! j
       /\ records (snap_store n (disk w2)) !! j = records (snap_store n (disk w)) !! j.
Proof.
  intros Hc w1 w2.
  assert (Hu : update n (Some k) item w
               = (Fulfilled k,
                  set_disk (set_snap_store n
                     (MkAutoStore (<[k := item]> (records (snap_store n (disk w))))
                                  (bump k (keyGen (snap_store n (disk w)))))
                     (disk w)) w)).
  { unfold update. by rewrite (performTransaction_connected _ _ _ w Hc). }
  subst w2 w1. rewrite Hu. cbn [fst snd].
  set (w1 := set_disk _ w).
  assert (Hc1 : connected w1) by (by apply connected_set_disk).
  assert (Hs1 : records (snap_store n (disk w1))
                = <[k := item]> (records (snap_store n (disk w)))).
  { subst w1. cbn [disk set_disk]. by rewrite snap_store_set. }
  assert (Hr : remove n k w1
               = (Fulfilled (),
                  set_disk (set_snap_store n
                     (MkAutoStore (delete k (records (snap_store n (disk w1))))
                                  (keyGen (snap_store n (disk w1))))
                     (disk w1)) w1)).
  { unfold remove. by rewrite (performTransaction_connected _ _ _ w1 Hc1). }
  rewrite Hr. cbn [fst snd].
  set (w2 := set_disk _ w1).
  assert (Hc2 : connected w2) by (by apply connected_set_disk).
  assert (Hs2 : records (snap_store n (disk w2))
                = delete k (records (snap_store n (disk w1)))).
  { subst w2. cbn [disk set_disk]. by rewrite snap_store_set. }
  rewrite !get_connected by done. rewrite Hs2, Hs1.
  split; [done|]. split; [by rewrite lookup_insert_eq|]. split; [done|].
  split; [by rewrite lookup_delete_eq|].
  intros j Hne. by rewrite lookup_delete_ne, lookup_insert_ne.
Qed.

Lemma update_get_remove_witness :
  let w := open_world (MkDatabase ∅ ∅ empty_store (MkAutoStore two_saves 3)) in
  getParking 2 (updateParking (Some 2) (Snapshot "renamed" "" 20) w).2
  = (Fulfilled (Some (Snapshot "renamed" "" 20)),
     (updateParking (Some 2) (Snapshot "renamed" "" 20) w).2).
Proof.
  intros w.
  destruct (update_get_remove STORE_SAVED_PARKING 2
              (Snapshot "renamed" "" 20) w) as (_ & H & _).
  - exists 0%nat. split; reflexivity.
  - exact H.
Defined.

Ltac two_saves_cases H :=
  let Heq := fresh "Heq" in
  assert (Heq : two_saves = <[2 := Snapshot "second" "" 20]>
                              (<[1 := Snapshot "first" "" 10]> ∅))
    by reflexivity;
  rewrite Heq in H; clear Heq;
  apply lookup_insert_Some in H as [[? ?]|[_ H]];
    [|apply lookup_insert_Some in H as [[? ?]|[_ H]];
        [|by rewrite lookup_empty in H]].

(** X12. On an open connection with a sound key generator that is not
    used up, a save with a limit of at least 1 whose timestamp is not
    older than any stored one keeps the record it adds: the record is
    stored under the key the generator held before the call, and [get]
    of that key returns it. *)
Theorem saved_record_is_kept (n : snap_store_name) (data nm : string)
    (limit now : Z) (w : World) :
  connected w ->
  keys_below (snap_store n (disk w)) ->
  keyGen (snap_store n (disk w)) <= MAX_GENERATED_KEY ->
  (forall j r t, records (snap_store n (disk w)) !! j = Some r ->
                 timestamp r = Some t -> t <= now) ->
  1 <= limit ->
  let w' := (saveSnapshot n data nm limit now w).2 in
  (saveSnapshot n data nm limit now w).1 = Fulfilled ()
  /\ get n (keyGen (snap_store n (disk w))) w'
     = (Fulfilled (Some (Snapshot nm data now)), w').
Proof.
  intros Hc Hk Hmax Hold Hl w'. subst w'.
  rewrite (saveSnapshot_connected _ _ _ _ _ _ Hc Hmax
             (keys_below_fresh _ Hk Hmax)).
  cbn [fst snd]. split; [done|].
  rewrite get_connected by (by apply connected_set_disk).
  cbn [disk set_disk]. rewrite snap_store_set. cbn [records].
  f_equal. f_equal.
  assert (Hh : head (index_prev
                       (<[keyGen (snap_store n (disk w)) := Snapshot nm data now]>
                          (records (snap_store n (disk w)))))
               = Some (now, keyGen (snap_store n (disk w)))).
  { apply index_prev_head_newest; [done|]. intros j r t Hj Ht. split.
    - apply keys_below_lt; [done|done|by eexists].
    - by apply (Hold j r). }
  rewrite head_lookup in Hh.
  pose proof (keep_newest_lookup limit _ _ _ Hh) as Hkeep.
  cbn [snd] in Hkeep. rewrite Hkeep.
  rewrite bool_decide_eq_false_2 by lia. apply lookup_insert_eq.
Qed.

Lemma saved_record_is_kept_witness :
  let w := open_world (MkDatabase ∅ ∅ (MkAutoStore two_saves 3) empty_store) in
  getState 3 (saveState "s" "third" (Some 1) 20 w).2
  = (Fulfilled (Some (Snapshot "third" "s" 20)),
     (saveState "s" "third" (Some 1) 20 w).2).
Proof.
  intros w.
  destruct (saved_record_is_kept STORE_SAVED_STATES "s" "third" 1 20 w)
    as [_ H].
  - exists 0%nat. split; reflexivity.
  - intros k [x Hx]. cbn in Hx. two_saves_cases Hx; subst; by vm_compute.
  - by vm_compute.
  - intros j r t Hj Ht. cbn in Hj.
    two_saves_cases Hj; subst; injection Ht as <-; lia.
  - lia.
  - exact H.
Defined.

Lemma getDB_disk w : disk (getDB w).2 = disk w.
Proof. unfold getDB. by destruct (dbPromise w). Qed.

Lemma performTransaction_disk {S A} (r : StoreRef S) mode
    (act : S -> request_result A * S) w :
  disk (performTransaction r mode act w).2 = disk w
  \/ exists s', disk (performTransaction r mode act w).2 = upd r s' (disk w).
Proof.
  unfold performTransaction. pose proof (getDB_disk w) as Hd.
  destruct (getDB w) as [p w1]. cbn in Hd.
  destruct (await p w1); cbn; auto.
  destruct (act (sel r (disk w1))) as [[x|e] s']; cbn; auto.
  destruct mode; cbn; auto. right. exists s'. by rewrite Hd.
Qed.

Lemma set_snap_store_twice n s1 s2 d :
  set_snap_store n s2 (set_snap_store n s1 d) = set_snap_store n s2 d.
Proof. by destruct n. Qed.

Lemma set_snap_store_id n d : set_snap_store n (snap_store n d) d = d.
Proof. by destruct n, d. Qed.

Lemma saveSnapshot_disk n data nm limit now w :
  exists s', disk (saveSnapshot n data nm limit now w).2
             = set_snap_store n s' (disk w).
Proof.
  unfold saveSnapshot, add.
  destruct (performTransaction_disk (snap_ref n) readwrite
              (store_add (Snapshot nm data now)) w) as [Hd|[s' Hd]].
  - destruct (performTransaction _ _ _ w) as [[|k|e] w1]; cbn in Hd.
    + exists (snap_store n (disk w)). by rewrite set_snap_store_id.
    + pose proof (getDB_disk w1) as Hg. destruct (getDB w1) as [p w2].
      cbn in Hg. destruct (await p w2); cbn.
      * exists (snap_store n (disk w)). by rewrite set_snap_store_id, Hg.
      * eexists. by rewrite Hg, Hd.
      * exists (snap_store n (disk w)). by rewrite set_snap_store_id, Hg.
    + exists (snap_store n (disk w)). by rewrite set_snap_store_id.
  - cbn [upd snap_ref] in Hd.
    destruct (performTransaction _ _ _ w) as [[|k|e] w1]; cbn in Hd.
    + by exists s'.
    + pose proof (getDB_disk w1) as Hg. destruct (getDB w1) as [p w2].
      cbn in Hg. destruct (await p w2); cbn.
      * exists s'. by rewrite Hg.
      * eexists. by rewrite Hg, Hd, set_snap_store_twice.
      * exists s'. by rewrite Hg.
    + by exists s'.
Qed.

(** X13. A save writes to its own store only: whatever the state of the
    page and the outcome of the call, [saveState] leaves [families],
    [cars] and [savedParking] as they were, and [saveParking] leaves
    [families], [cars] and [savedStates] as they were. *)
Theorem save_touches_one_store (data nm : string) (limit : option Z) (now : Z)
    (w : World) :
  (let w' := (saveState data nm limit now w).2 in
   families (disk w') = families (disk w)
   /\ cars (disk w') = cars (disk w)
   /\ savedParking (disk w') = savedParking (disk w))
  /\ (let w' := (saveParking data nm limit now w).2 in
      families (disk w') = families (disk w)
      /\ cars (disk w') = cars (disk w)
      /\ savedStates (disk w') = savedStates (disk w)).
Proof.
  split; intros w'; subst w'.
  - unfold saveState.
    destruct (saveSnapshot_disk STORE_SAVED_STATES data nm (default 5 limit)
                now w) as [s' ->]. done.
  - unfold saveParking.
    destruct (saveSnapshot_disk STORE_SAVED_PARKING data nm (default 20 limit)
                now w) as [s' ->]. done.
Qed.

Lemma StronglySorted_lookup_lt {A} (R : relation A) (l : list A) i j x y :
  StronglySorted R l -> (i < j)%nat ->
  l !! i = Some x -> l !! j = Some y -> R x y.
Proof.
  intros Hs. revert i j. induction Hs as [|z l Hl IH Hz]; intros i j Hij Hi Hj.
  - by rewrite lookup_nil in Hi.
  - destruct j as [|j]; [lia|]. cbn in Hj. destruct i as [|i].
    + injection Hi as ->. rewrite Forall_forall in Hz.
      apply Hz. by eapply list_elem_of_lookup_2.
    + cbn in Hi. eapply (IH i j); (done || lia).
Qed.

(** X14. The eviction pass never keeps an older record while deleting a
    newer one: a record the pass deleted has a timestamp, and a record
    with a timestamp that is still stored after the pass has the later
    timestamp of the two, or the same timestamp and the larger key. *)
Theorem eviction_keeps_the_newest (limit : Z) (m : gmap Z snapshot)
    (k1 k2 : Z) (r1 r2 : snapshot) :
  let st := run limit (trim_fuel m) (start_trim m) in
  m !! k1 = Some r1 ->
  m !! k2 = Some r2 ->
  durable st !! k1 = Some r1 ->
  durable st !! k2 = None ->
  exists t2,
    timestamp r2 = Some t2
    /\ forall t1, timestamp r1 = Some t1 ->
         t2 < t1 \/ (t2 = t1 /\ k2 < k1).
Proof.
  intros st H1 H2 Hkept Hgone. subst st.
  rewrite run_complete in Hkept, Hgone. cbn [durable] in Hkept, Hgone.
  rewrite evict_keep_newest in Hkept, Hgone.
  destruct (timestamp r2) as [t2|] eqn:Ht2.
  2:{ rewrite (keep_newest_unindexed limit m k2 r2 H2 Ht2) in Hgone. done. }
  exists t2. split; [done|]. intros t1 Ht1.
  assert (Hin1 : (t1, k1) ∈ index_prev m).
  { apply elem_of_index_prev. by exists r1. }
  assert (Hin2 : (t2, k2) ∈ index_prev m).
  { apply elem_of_index_prev. by exists r2. }
  apply list_elem_of_lookup in Hin1 as [i Hi].
  apply list_elem_of_lookup in Hin2 as [j Hj].
  pose proof (keep_newest_lookup limit m i _ Hi) as Hk1.
  pose proof (keep_newest_lookup limit m j _ Hj) as Hk2.
  cbn [snd] in Hk1, Hk2. rewrite Hkept in Hk1. rewrite Hgone in Hk2.
  assert (Hi' : ~ Z.of_nat (S i) > limit).
  { intros Hgt. by rewrite bool_decide_eq_true_2 in Hk1. }
  assert (Hj' : Z.of_nat (S j) > limit).
  { destruct (decide (Z.of_nat (S j) > limit)) as [|Hle]; [done|].
    rewrite bool_decide_eq_false_2 in Hk2 by done. congruence. }
  assert (Hij : (i < j)%nat) by lia.
  pose proof (StronglySorted_lookup_lt _ _ _ _ _ _ (index_prev_sorted m)
                Hij Hi Hj) as Hord.
  apply prev_order_strict in Hord.
  - apply ikey_ltb_spec in Hord. exact Hord.
  - intros [= Ht Hk]. subst k2.
    pose proof (index_prev_NoDup m) as Hnd.
    assert (i = j); [|lia].
    apply (NoDup_lookup _ i j _ Hnd Hi). by rewrite Ht.
Qed.

Lemma eviction_keeps_the_newest_witness :
  exists t2,
    timestamp (Snapshot "first" "" 10) = Some t2
    /\ forall t1, timestamp (Snapshot "second" "" 20) = Some t1 ->
         t2 < t1 \/ (t2 = t1 /\ 1 < 2).
Proof.
  apply (eviction_keeps_the_newest 1 two_saves 2 1
           (Snapshot "second" "" 20) (Snapshot "first" "" 10));
    reflexivity.
Defined.

(** X15. Saving and then listing: on an open connection with a sound key
    generator that is not used up, after a save with a limit of at least
    1 on a collection whose records all carry a timestamp earlier than
    the one of the save, [getAllSavedStates] / [getAllSavedParking]
    lists the new record first, and lists [min (n + 1) limit] records
    when the collection held [n]. *)
Theorem newest_is_listed_first (n : snap_store_name) (data nm : string)
    (limit now : Z) (w : World) :
  connected w ->
  keys_below (snap_store n (disk w)) ->
  keyGen (snap_store n (disk w)) <= MAX_GENERATED_KEY ->
  (forall j r, records (snap_store n (disk w)) !! j = Some r ->
               exists t, timestamp r = Some t /\ t < now) ->
  1 <= limit ->
  let w' := (saveSnapshot n data nm limit now w).2 in
  exists l,
    getAllSaved n w' = (Fulfilled l, w')
    /\ head l = Some (keyGen (snap_store n (disk w)), Snapshot nm data now)
    /\ length l
       = (S (size (records (snap_store n (disk w)))) `min` Z.to_nat limit)%nat.
Proof.
  intros Hc Hk Hmax Hold Hl w'. subst w'.
  pose proof (keys_below_fresh _ Hk Hmax) as Hfresh.
  rewrite (saveSnapshot_connected _ _ _ _ _ _ Hc Hmax Hfresh). cbn [snd].
  set (s := snap_store n (disk w)) in *.
  set (m' := keep_newest limit (<[keyGen s := Snapshot nm data now]> (records s))).
  set (w' := set_disk _ w).
  assert (Hc' : connected w') by (by apply connected_set_disk).
  assert (Hrec : records (snap_store n (disk w')) = m').
  { subst w'. cbn [disk set_disk]. by rewrite snap_store_set. }
  assert (Hidx : indexed (<[keyGen s := Snapshot nm data now]> (records s))).
  { apply indexed_insert; [|done]. intros j r Hj.
    destruct (Hold j r Hj) as (t & -> & _). done. }
  assert (Hidx' : indexed m').
  { eapply indexed_subseteq; [apply keep_newest_subseteq|done]. }
  unfold getAllSaved. rewrite (getAll_connected n w' Hc'), Hrec.
  set (l := js_sort newest_first (merge_sort by_key (map_to_list m'))).
  assert (Hperm : l ≡ₚ map_to_list m').
  { subst l. by rewrite js_sort_perm, merge_sort_Permutation. }
  assert (Hnew : m' !! keyGen s = Some (Snapshot nm data now)).
  { assert (Hh : head (index_prev
                         (<[keyGen s := Snapshot nm data now]> (records s)))
                 = Some (now, keyGen s)).
    { apply index_prev_head_newest; [done|]. intros j r t Hj Ht. split.
      - apply keys_below_lt; [done|done|by eexists].
      - destruct (Hold j r Hj) as (t' & Ht' & Hlt).
        rewrite Ht in Ht'. injection Ht' as <-. lia. }
    rewrite head_lookup in Hh.
    pose proof (keep_newest_lookup limit _ _ _ Hh) as Hkeep.
    cbn [snd] in Hkeep. subst m'. rewrite Hkeep.
    rewrite bool_decide_eq_false_2 by lia. apply lookup_insert_eq. }
  exists l. split; [done|]. split.
  - assert (Hin : (keyGen s, Snapshot nm data now) ∈ l).
    { rewrite Hperm. by apply elem_of_map_to_list. }
    pose proof (js_sort_sorted _ (indexed_getAll m' Hidx')) as Hs.
    fold l in Hs. destruct l as [|x l']; [by apply elem_of_nil in Hin|].
    cbn. f_equal. apply elem_of_cons in Hin as [Heq|Hin]; [done|].
    apply StronglySorted_inv in Hs as [_ Hx]. rewrite Forall_forall in Hx.
    specialize (Hx _ Hin).
    assert (Hxin : x ∈ map_to_list m') by (rewrite <- Hperm; by left).
    destruct x as [k r]. apply elem_of_map_to_list in Hxin.
    eapply lookup_weaken in Hxin; [|apply keep_newest_subseteq].
    apply lookup_insert_Some in Hxin as [[<- <-]|[_ Hxin]]; [done|].
    destruct (Hold k r Hxin) as (t & Ht & Hlt).
    rewrite (newer_or_same_spec (k, r) (keyGen s, Snapshot nm data now) t now)
      in Hx by done.
    lia.
  - rewrite Hperm, length_map_to_list. subst m'.
    rewrite size_keep_newest_indexed, map_size_insert_None by done. done.
Qed.

Lemma newest_is_listed_first_witness :
  let w := open_world (MkDatabase ∅ ∅ (MkAutoStore two_saves 3) empty_store) in
  exists l,
    getAllSavedStates (saveState "s" "third" (Some 2) 30 w).2
    = (Fulfilled l, (saveState "s" "third" (Some 2) 30 w).2)
    /\ head l = Some (3, Snapshot "third" "s" 30)
    /\ length l = 2%nat.
Proof.
  intros w.
  destruct (newest_is_listed_first STORE_SAVED_STATES "s" "third" 2 30 w)
    as (l & H1 & H2 & H3).
  - exists 0%nat. split; reflexivity.
  - intros k [x Hx]. cbn in Hx. two_saves_cases Hx; subst; by vm_compute.
  - by vm_compute.
  - intros j r Hj. cbn in Hj.
    two_saves_cases Hj; subst; eexists; (split; [reflexivity|lia]).
  - lia.
  - exists l. split; [exact H1|]. split; [exact H2|].
    rewrite H3. reflexivity.
Defined.

(** * A request that fails during the eviction pass *)

Lemma run_S limit j st : run limit (S j) st = step limit None (run limit j st).
Proof. replace (S j) with (j + 1)%nat by lia. by rewrite run_plus. Qed.

Lemma step_keeps_durable limit st :
  status st = Active -> queue st <> [] ->
  durable (step limit None st) = durable st.
Proof.
  intros Hs Hq. unfold step. rewrite Hs.
  destruct (queue st) as [|[|pos|pk] q]; [done|..]; try done.
  - unfold cursorRequest_onsuccess. by destruct (cursor_at _ _).
  - unfold cursorRequest_onsuccess. by destruct (cursor_at _ _).
Qed.

Lemma step_empty_queue_commits limit st :
  status st = Active -> queue st = [] ->
  status (step limit None st) = Committed.
Proof. intros Hs Hq. unfold step. by rewrite Hs, Hq. Qed.

Lemma run_before_cursor_end limit m j :
  (j < evict_turns limit 0 (index_prev m))%nat ->
  status (run limit j (start_trim m)) = Active
  /\ queue (run limit j (start_trim m)) <> [].
Proof.
  intros Hj. destruct (run_to_cursor_end limit m) as [Hend Hpend].
  set (T := evict_turns limit 0 (index_prev m)) in *.
  assert (Hact : status (run limit j (start_trim m)) = Active).
  { destruct (status (run limit j (start_trim m))) eqn:E; [done| |].
    - assert (Hrun : run limit T (start_trim m) = run limit j (start_trim m)).
      { replace T with (j + (T - j))%nat by lia.
        rewrite run_plus. apply run_terminal. by rewrite E. }
      rewrite Hend in Hrun. by rewrite <- Hrun in E.
    - assert (Hrun : run limit T (start_trim m) = run limit j (start_trim m)).
      { replace T with (j + (T - j))%nat by lia.
        rewrite run_plus. apply run_terminal. by rewrite E. }
      rewrite Hend in Hrun. by rewrite <- Hrun in E. }
  split; [done|]. intros Hq.
  pose proof (step_empty_queue_commits limit _ Hact Hq) as Hcommit.
  rewrite <- run_S in Hcommit.
  assert (Hrun : run limit T (start_trim m) = run limit (S j) (start_trim m)).
  { replace T with (S j + (T - S j))%nat by lia.
    rewrite run_plus. apply run_terminal. by rewrite Hcommit. }
  rewrite Hend in Hrun. by rewrite <- Hrun in Hcommit.
Qed.

Lemma run_durable_before_end limit m j :
  (j <= evict_turns limit 0 (index_prev m))%nat ->
  durable (run limit j (start_trim m)) = m.
Proof.
  induction j as [|j IH]; intros Hj; [done|].
  destruct (run_before_cursor_end limit m j) as [Ha Hq]; [lia|].
  rewrite run_S, step_keeps_durable by done. apply IH. lia.
Qed.

(** X16. If a request of the eviction pass fails at any turn before the
    cursor has reported its end, the promise of the save is rejected
    with the error of that request, the transaction is aborted, and the
    committed store holds every record the pass started from: nothing
    is evicted, and the record the save had just added stays. *)
Theorem failed_request_aborts_pass (limit : Z) (m : gmap Z snapshot)
    (e : error) (j : nat) :
  (j < evict_turns limit 0 (index_prev m))%nat ->
  let st := step limit (Some e) (run limit j (start_trim m)) in
  promise st = Rejected e /\ status st = Aborted /\ durable st = m.
Proof.
  intros Hj st. subst st.
  destruct (run_before_cursor_end limit m j Hj) as [Ha Hq].
  destruct (run_to_cursor_end limit m) as [_ Hpend].
  destruct (step_fault_aborts limit e _ Ha Hq) as (H1 & H2 & H3).
  rewrite H3, H2, (Hpend j Hj), run_durable_before_end by lia. done.
Qed.

Lemma failed_request_aborts_pass_witness :
  let st := step 1 (Some AbortError) (run 1 2 (start_trim two_saves)) in
  promise st = Rejected AbortError /\ durable st = two_saves.
Proof.
  intros st.
  destruct (failed_request_aborts_pass 1 two_saves AbortError 2)
    as (H1 & _ & H3).
  - vm_compute. lia.
  - split; [exact H1 | exact H3].
Defined.

(** * sw.js: activation and the network-first strategy *)

Section CacheController.
Import Sw.

Lemma lookup_bucket_cons n n' b cs :
  lookup_bucket n ((n', b) :: cs)
  = if bool_decide (n' = n) then Some b else lookup_bucket n cs.
Proof.
  unfold lookup_bucket. cbn [List.find fst].
  by destruct (bool_decide (n' = n)).
Qed.

Lemma lookup_bucket_update n f cs :
  lookup_bucket n (update_bucket n f cs) = f <$> lookup_bucket n cs.
Proof.
  induction cs as [|[n' b] cs IH]; [done|]. cbn [update_bucket].
  case_bool_decide as Hn.
  - rewrite !lookup_bucket_cons. by rewrite !bool_decide_eq_true_2.
  - rewrite !lookup_bucket_cons. by rewrite !bool_decide_eq_false_2.
Qed.

Lemma lookup_bucket_update_ne n n' f cs :
  n <> n' -> lookup_bucket n' (update_bucket n f cs) = lookup_bucket n' cs.
Proof.
  intros Hne. induction cs as [|[n0 b] cs IH]; [done|]. cbn [update_bucket].
  case_bool_decide as Hn.
  - subst n0. rewrite !lookup_bucket_cons.
    by rewrite !bool_decide_eq_false_2.
  - rewrite !lookup_bucket_cons. by rewrite IH.
Qed.

Lemma lookup_bucket_app_new n n' cs :
  lookup_bucket n' (cs ++ [(n, ∅)])
  = match lookup_bucket n' cs with
    | Some b => Some b
    | None => if bool_decide (n = n') then Some ∅ else None
    end.
Proof.
  induction cs as [|[n0 b] cs IH].
  - cbn [app]. rewrite lookup_bucket_cons.
    change (lookup_bucket n' []) with (@None bucket).
    by destruct (bool_decide (n = n')).
  - cbn [app]. rewrite !lookup_bucket_cons.
    by destruct (bool_decide (n0 = n')).
Qed.

(** What [cache.put] leaves in the buckets. *)
Lemma cache_put_stored pf url r s n u :
  stored n u (cache_put pf url r s)
  = if decide (n = CACHE_NAME /\ u = url
               /\ open_ok pf = true /\ put_ok pf = true)
    then Some r else stored n u s.
Proof.
  unfold cache_put, caches_open, stored.
  destruct (open_ok pf) eqn:Ho; cbn [caches console fst snd].
  2:{ rewrite decide_False; [done|]. intros (_ & _ & ? & _). done. }
  destruct (lookup_bucket CACHE_NAME (caches s)) as [b|] eqn:Eb;
    cbn [caches console fst snd];
    destruct (put_ok pf) eqn:Hp; cbn [caches console fst snd].
  - destruct (decide (n = CACHE_NAME)) as [->|Hn].
    + rewrite lookup_bucket_update, Eb. cbn.
      destruct (decide (u = url)) as [->|Hu].
      * rewrite decide_True by done. apply lookup_insert_eq.
      * rewrite decide_False by tauto. by rewrite lookup_insert_ne.
    + rewrite decide_False by tauto.
      by rewrite lookup_bucket_update_ne.
  - rewrite decide_False; [done|]. intros (_ & _ & _ & ?). done.
  - destruct (decide (n = CACHE_NAME)) as [->|Hn].
    + rewrite lookup_bucket_update, lookup_bucket_app_new, Eb.
      rewrite bool_decide_eq_true_2 by done. cbn.
      destruct (decide (u = url)) as [->|Hu].
      * rewrite decide_True by done. apply lookup_insert_eq.
      * rewrite decide_False by tauto.
        by rewrite lookup_insert_ne, lookup_empty.
    + rewrite decide_False by tauto.
      rewrite lookup_bucket_update_ne, lookup_bucket_app_new by done.
      destruct (lookup_bucket n (caches s)); [done|].
      by rewrite bool_decide_eq_false_2.
  - rewrite decide_False; [|intros (_ & _ & _ & ?); done].
    rewrite lookup_bucket_app_new.
    destruct (lookup_bucket n (caches s)); [done|].
    case_bool_decide; [|done]. cbn. apply lookup_empty.
Qed.

Lemma cache_put_console pf url r s :
  console (cache_put pf url r s) = console s.
Proof.
  unfold cache_put, caches_open. destruct (open_ok pf); [|done].
  destruct (lookup_bucket CACHE_NAME (caches s)); cbn;
    by destruct (put_ok pf).
Qed.

Lemma eligible_guard origin url :
  eligible origin url ->
  negb (startsWith url origin) && negb (startsWith url TAILWIND) = false.
Proof. intros [-> | ->]; [done|]. apply andb_false_r. Qed.

Lemma on_fetched_cacheable pf url r s :
  on_fetched pf url r s
  = (Fulfilled (Some r),
     if decide (cacheable url r) then cache_put pf url r s else s).
Proof.
  unfold on_fetched.
  destruct (decide (cacheable url r)) as [Hc|Hc]; unfold cacheable in Hc.
  - destruct Hc as [[Hs Ht]|[Hw Ho]].
    + by rewrite !bool_decide_eq_false_2 by (intros H; by apply H).
    + rewrite Hw, (bool_decide_eq_true_2 (type r = opaque)) by done.
      by destruct (bool_decide (status r ≠ 200) || bool_decide (type r ≠ basic)).
  - assert (Hout : bool_decide (status r ≠ 200) || bool_decide (type r ≠ basic)
                   = true).
    { destruct (decide (status r = 200)) as [Hs|Hs].
      - destruct (decide (type r = basic)) as [Ht|Ht]; [tauto|].
        rewrite (bool_decide_eq_true_2 (type r ≠ basic)) by done.
        apply orb_true_r.
      - by rewrite (bool_decide_eq_true_2 (status r ≠ 200)). }
    rewrite Hout.
    destruct (startsWith url TAILWIND) eqn:Hw; [|done].
    destruct (decide (type r = opaque)) as [Ho|Ho]; [tauto|].
    by rewrite (bool_decide_eq_false_2 (type r = opaque)).
Qed.

(** X17. Network first: a request the listener answers whose fetch
    succeeds gets the network's response, whatever the cache holds. The
    response is stored only if it is a basic response with status 200,
    or an opaque response to a Tailwind URL, and only when the cache
    accepts the write; the one entry written is the request's URL in the
    current bucket, and every other entry of every bucket is as it
    was. *)
Theorem network_first (pf : Platform) (origin url : string) (r : response)
    (s : State) :
  eligible origin url ->
  fetch pf url = Some r ->
  let res := fetch_listener pf origin url s in
  res.1 = RespondWith (Some r)
  /\ console res.2 = console s
  /\ forall n u,
       stored n u res.2
       = if decide (cacheable url r /\ n = CACHE_NAME /\ u = url
                    /\ open_ok pf = true /\ put_ok pf = true)
         then Some r else stored n u s.
Proof.
  intros He Hf res. subst res. unfold fetch_listener.
  rewrite (eligible_guard _ _ He).
  unfold catch_, then_, network. rewrite Hf, on_fetched_cacheable.
  cbn [fst snd]. split; [done|].
  destruct (decide (cacheable url r)) as [Hc|Hc].
  - split; [apply cache_put_console|]. intros n u.
    rewrite cache_put_stored.
    destruct (decide (n = CACHE_NAME /\ u = url /\ open_ok pf = true
                      /\ put_ok pf = true)).
    + by rewrite decide_True.
    + rewrite decide_False; [done|tauto].
  - split; [done|]. intros n u. rewrite decide_False; [done|tauto].
Qed.

Lemma network_first_witness :
  let pf := MkPlatform (fun _ => Some (Response 404 basic "missing")) true true
                       "https://app.example/" in
  let res := fetch_listener pf app_origin "https://app.example/x" (MkState [] []) in
  res.1 = RespondWith (Some (Response 404 basic "missing"))
  /\ stored CACHE_NAME "https://app.example/x" res.2 = None.
Proof.
  intros pf res.
  destruct (network_first pf app_origin "https://app.example/x"
              (Response 404 basic "missing") (MkState [] []))
    as (H1 & _ & H3).
  - left. reflexivity.
  - reflexivity.
  - split; [exact H1|]. rewrite H3. reflexivity.
Defined.

Lemma fetch_listener_offline pf origin url s :
  eligible origin url ->
  fetch pf url = None ->
  (fetch_listener pf origin url s).1 = RespondWith (caches_match url (caches s))
  /\ caches (fetch_listener pf origin url s).2 = caches s.
Proof.
  intros He Hf. unfold fetch_listener.
  rewrite (eligible_guard _ _ He).
  unfold catch_, then_, network, on_fetch_failed, then_, console_log.
  rewrite Hf. cbn. by destruct (caches_match url (caches s)).
Qed.

(** X18. Cache fallback: a request the listener answers whose fetch
    fails is answered with the first response stored for its URL in any
    bucket, oldest bucket first, and with nothing ([undefined]) when no
    bucket holds it; the caches are not modified. *)
Theorem cache_fallback (pf : Platform) (origin url : string) (s : State) :
  eligible origin url ->
  fetch pf url = None ->
  let res := fetch_listener pf origin url s in
  res.1 = RespondWith (caches_match url (caches s))
  /\ caches res.2 = caches s.
Proof.
  intros He Hf res. subst res. by apply fetch_listener_offline.
Qed.

Lemma cache_fallback_witness :
  (fetch_listener offline app_origin "https://app.example/x"
     (MkState [] [])).1 = RespondWith None.
Proof.
  destruct (cache_fallback offline app_origin "https://app.example/x"
              (MkState [] [])) as [H _].
  - left. reflexivity.
  - reflexivity.
  - exact H.
Defined.

Lemma caches_match_put_current pf url r s :
  open_ok pf = true -> put_ok pf = true ->
  (forall n, n ∈ caches_keys (caches s) -> n = CACHE_NAME) ->
  caches_match url (caches (cache_put pf url r s)) = Some r.
Proof.
  intros Ho Hp Hall. unfold cache_put, caches_open. rewrite Ho, Hp.
  destruct (caches s) as [|[n0 b0] cs] eqn:Ecs.
  - change (lookup_bucket CACHE_NAME []) with (@None bucket).
    cbn [caches console fst snd app update_bucket fst].
    rewrite bool_decide_eq_true_2 by done.
    cbn [caches_match]. by rewrite lookup_insert_eq.
  - assert (n0 = CACHE_NAME) as ->.
    { apply Hall. unfold caches_keys. cbn. by left. }
    rewrite lookup_bucket_cons, bool_decide_eq_true_2 by done.
    cbn [caches console fst snd]. rewrite Ecs. cbn [update_bucket].
    rewrite bool_decide_eq_true_2 by done.
    cbn [caches_match]. by rewrite lookup_insert_eq.
Qed.

(** X19. Online, then offline: when every bucket is the current one (the
    state activation leaves) and the cache accepts writes, a request
    answered from the network with a response the listener stores is
    answered with that same response when the network later fails. *)
Theorem cached_copy_served_offline (online down : Platform)
    (origin url : string) (r : response) (s : State) :
  eligible origin url ->
  fetch online url = Some r ->
  cacheable url r ->
  open_ok online = true -> put_ok online = true ->
  (forall n, n ∈ caches_keys (caches s) -> n = CACHE_NAME) ->
  fetch down url = None ->
  (fetch_listener down origin url (fetch_listener online origin url s).2).1
  = RespondWith (Some r).
Proof.
  intros He Hf Hc Ho Hp Hall Hd.
  destruct (fetch_listener_offline down origin url
              (fetch_listener online origin url s).2 He Hd) as [-> _].
  f_equal. unfold fetch_listener. rewrite (eligible_guard _ _ He).
  unfold catch_, then_, network. rewrite Hf, on_fetched_cacheable.
  rewrite decide_True by done. cbn [fst snd].
  by apply caches_match_put_current.
Qed.

Lemma cached_copy_served_offline_witness :
  let page := Response 200 basic "index" in
  let online := MkPlatform (fun _ => Some page) true true
                           "https://app.example/" in
  (fetch_listener offline app_origin "https://app.example/index.html"
     (fetch_listener online app_origin "https://app.example/index.html"
        (MkState [] [])).2).1
  = RespondWith (Some page).
Proof.
  intros page online.
  apply (cached_copy_served_offline online offline app_origin
           "https://app.example/index.html" page (MkState [] [])).
  - left. reflexivity.
  - reflexivity.
  - left. split; reflexivity.
  - reflexivity.
  - reflexivity.
  - intros n Hn. by apply elem_of_nil in Hn.
  - reflexivity.
Defined.

Lemma clear_old_caches s names :
  caches (foldl clear_old s names)
  = filter (fun nb : string * bucket =>
              nb.1 = CACHE_NAME \/ nb.1 ∉ names) (caches s).
Proof.
  revert s. induction names as [|n names IH]; intros s.
  - cbn [foldl]. symmetry. apply filter_all, Forall_forall.
    intros nb _. right. apply not_elem_of_nil.
  - cbn [foldl]. rewrite IH. unfold clear_old. case_bool_decide as Hn.
    + cbn [caches]. unfold caches_delete, CacheStorage.
      rewrite list_filter_filter.
      apply filter_ext_elem_of. intros nb _. rewrite not_elem_of_cons.
      split; [intros [[?|?] ?]|intros [?|[? ?]]]; tauto || (split; [tauto|congruence]).
    + subst n. apply filter_ext_elem_of. intros nb _.
      rewrite not_elem_of_cons.
      destruct (decide (nb.1 = CACHE_NAME)); tauto.
Qed.

Lemma lookup_bucket_filter_name n (cs : list (string * bucket)) :
  lookup_bucket n (filter (fun nb : string * bucket => nb.1 = n) cs)
  = lookup_bucket n cs.
Proof.
  induction cs as [|[n' b] cs IH]; [done|].
  rewrite filter_cons. cbn [fst]. destruct (decide (n' = n)) as [->|Hne].
  - rewrite !lookup_bucket_cons. by rewrite !bool_decide_eq_true_2.
  - rewrite lookup_bucket_cons, bool_decide_eq_false_2 by done. exact IH.
Qed.

Lemma activate_caches s :
  caches (activate s).2
  = filter (fun nb : string * bucket => nb.1 = CACHE_NAME) (caches s).
Proof.
  unfold activate, then_, console_log. cbn [fst snd caches].
  rewrite clear_old_caches. cbn [caches].
  apply filter_ext_elem_of. intros nb Hnb. split; [|tauto].
  intros [?|Hni]; [done|]. destruct Hni. unfold caches_keys.
  by apply list_elem_of_fmap_2.
Qed.

(** X20. Activation keeps the buckets of the current version and nothing
    else: the promise given to [waitUntil] is fulfilled, every bucket
    whose name differs from [CACHE_NAME] is deleted, what the current
    bucket stores is unchanged, and activating again changes no
    bucket. *)
Theorem activate_keeps_current_only (s : State) :
  let s' := (activate s).2 in
  (activate s).1 = Fulfilled ()
  /\ caches s'
     = filter (fun nb : string * bucket => nb.1 = CACHE_NAME) (caches s)
  /\ (forall n, n ∈ caches_keys (caches s') <-> 
                n = CACHE_NAME /\ n ∈ caches_keys (caches s))
  /\ (forall url, stored CACHE_NAME url s' = stored CACHE_NAME url s)
  /\ caches (activate s').2 = caches s'.
Proof.
  pose proof activate_caches as Hcaches.
  intros s'. subst s'. split; [done|]. split; [apply Hcaches|].
  split; [|split].
  - intros n. rewrite Hcaches. unfold caches_keys.
    rewrite !list_elem_of_fmap. split.
    + intros (nb & -> & Hin). apply list_elem_of_filter in Hin as [Hn Hin].
      split; [done|]. by exists nb.
    + intros (Hn & nb & -> & Hin). exists nb. split; [done|].
      by apply list_elem_of_filter.
  - intros url. unfold stored. rewrite Hcaches.
    by rewrite lookup_bucket_filter_name.
  - rewrite !Hcaches. unfold CacheStorage. rewrite list_filter_filter.
    apply filter_ext_elem_of. intros nb _. tauto.
Qed.

Lemma activate_keeps_current_only_witness :
  let old := ("car-app-cache-v0", {[ "/x" := Response 200 basic "old" ]}) in
  let cur := (CACHE_NAME, {[ "/x" := Response 200 basic "new" ]}) in
  caches (activate (MkState [old; cur] [])).2 = [cur]
  /\ ("car-app-cache-v0" ∈ caches_keys (caches (activate (MkState [old; cur] [])).2)
      -> False).
Proof.
  intros old cur.
  destruct (activate_keeps_current_only (MkState [old; cur] []))
    as (_ & H2 & H3 & _).
  split; [rewrite H2; reflexivity|].
  intros Hin. apply H3 in Hin as [Hn _]. discriminate Hn.
Defined.

Lemma put_all_lookup (f : string -> option response) l :
  forall (b : bucket) u,
    (forall ur, ur ∈ l -> f ur.1 = Some ur.2) ->
    put_all l b !! u = if decide (u ∈ l.*1) then f u else b !! u.
Proof.
  induction l as [|[u0 r0] l IH]; intros b u Hf.
  - cbn. by rewrite decide_False by apply not_elem_of_nil.
  - change (put_all ((u0, r0) :: l) b) with (put_all l (<[u0 := r0]> b)).
    rewrite IH by (intros ur Hur; apply Hf; by right).
    rewrite fmap_cons. cbn [fst].
    destruct (decide (u ∈ l.*1)) as [Hin|Hin].
    + rewrite decide_True; [done|]. by right.
    + destruct (decide (u = u0)) as [->|Hne].
      * rewrite decide_True by (by left). rewrite lookup_insert_eq.
        symmetry. apply (Hf (u0, r0)). by left.
      * rewrite decide_False; [by rewrite lookup_insert_ne|].
        intros [?|?]%elem_of_cons; done.
Qed.

Lemma fetch_all_ok pf urls l :
  fetch_all pf urls = inr l ->
  l.*1 = urls /\ forall ur, ur ∈ l -> fetch pf ur.1 = Some ur.2.
Proof.
  revert l. induction urls as [|u urls IH]; intros l; cbn.
  - intros [= <-]. split; [done|]. by intros ur ?%elem_of_nil.
  - destruct (fetch pf u) as [r|] eqn:Ef; [|done].
    destruct (ok r); [|done].
    destruct (fetch_all pf urls) as [e|l']; [done|]. intros [= <-].
    destruct (IH l' eq_refl) as [H1 H2]. split; [by rewrite fmap_cons, H1|].
    intros ur [->|Hin]%elem_of_cons; [done|by apply H2].
Qed.

Lemma fetch_all_total pf urls :
  (forall u, u ∈ urls -> exists r, fetch pf u = Some r /\ ok r = true) ->
  exists l, fetch_all pf urls = inr l.
Proof.
  induction urls as [|u urls IH]; intros H; cbn; [by eexists|].
  destruct (H u) as (r & -> & ->); [by left|].
  destruct IH as [l ->]; [intros; apply H; by right|]. by eexists.
Qed.

Lemma install_success pf s l :
  open_ok pf = true -> put_ok pf = true ->
  NoDup (resolve (base pf) <$> urlsToCache) ->
  fetch_all pf (resolve (base pf) <$> urlsToCache) = inr l ->
  install pf s
  = (Fulfilled (),
     MkState (update_bucket CACHE_NAME (put_all l)
                (match lookup_bucket CACHE_NAME (caches s) with
                 | Some _ => caches s
                 | None => caches s ++ [(CACHE_NAME, ∅)]
                 end))
             (console s ++ ["[ServiceWorker] Install";
                            "[ServiceWorker] Caching app shell"])).
Proof.
  intros Ho Hp Hnd Hl.
  unfold install. remember urlsToCache as urls eqn:Hurls. clear Hurls.
  unfold then_, catch_, console_log, cache_addAll, caches_open.
  cbn [fst snd caches console].
  rewrite Ho, Hl, (bool_decide_eq_true_2 _ Hnd), Hp.
  destruct (lookup_bucket CACHE_NAME (caches s)) as [b|] eqn:Eb;
    cbn [fst snd caches console]; by rewrite <- app_assoc.
Qed.

(** X21. Priming: when the cache can be opened and written, the entries
    of the manifest resolve to distinct URLs and each is fetched with a
    status [cache.addAll] accepts, the install step succeeds without
    logging a failure; the current bucket then stores, under the URL
    each manifest entry resolves to, the response fetched for it, and
    its other entries are as they were. *)
Theorem install_primes_cache (pf : Platform) (s : State) :
  open_ok pf = true -> put_ok pf = true ->
  NoDup (resolve (base pf) <$> urlsToCache) ->
  (forall u, u ∈ urlsToCache ->
     exists r, fetch pf (resolve (base pf) u) = Some r /\ ok r = true) ->
  (install pf s).1 = Fulfilled ()
  /\ console (install pf s).2
     = console s ++ ["[ServiceWorker] Install";
                     "[ServiceWorker] Caching app shell"]
  /\ forall url,
       stored CACHE_NAME url (install pf s).2
       = if decide (url ∈ resolve (base pf) <$> urlsToCache) then fetch pf url
         else stored CACHE_NAME url s.
Proof.
  intros Ho Hp Hnd Hok.
  destruct (fetch_all_total pf (resolve (base pf) <$> urlsToCache)) as [l Hl].
  { intros v (u & -> & Hu)%list_elem_of_fmap. by apply Hok. }
  destruct (fetch_all_ok pf _ l Hl) as [Hkeys Hvals].
  rewrite (install_success pf s l Ho Hp Hnd Hl).
  split; [done|]. split; [done|].
  intros url. unfold stored. cbn [snd caches].
  destruct (lookup_bucket CACHE_NAME (caches s)) as [b|] eqn:Eb.
  - rewrite lookup_bucket_update, Eb.
    cbn [fmap option_fmap option_map mbind option_bind].
    rewrite (put_all_lookup (fetch pf)), Hkeys by done. done.
  - rewrite lookup_bucket_update, lookup_bucket_app_new, Eb.
    rewrite bool_decide_eq_true_2 by done.
    cbn [fmap option_fmap option_map mbind option_bind].
    rewrite (put_all_lookup (fetch pf)), Hkeys by done.
    destruct (decide (url ∈ resolve (base pf) <$> urlsToCache)); [done|].
    apply lookup_empty.
Qed.

Lemma install_primes_cache_witness :
  let page := Response 200 basic "asset" in
  let pf := MkPlatform (fun _ => Some page) true true "https://app.example/" in
  (install pf (MkState [] [])).1 = Fulfilled ()
  /\ stored CACHE_NAME "https://app.example/db.js" (install pf (MkState [] [])).2
     = Some page
  /\ stored CACHE_NAME "./db.js" (install pf (MkState [] [])).2 = None.
Proof.
  intros page pf.
  destruct (install_primes_cache pf (MkState [] [])) as (H1 & _ & H3).
  - reflexivity.
  - reflexivity.
  - compute_done.
  - intros u _. exists page. split; reflexivity.
  - split; [exact H1|]. rewrite !H3. split; reflexivity.
Defined.

Lemma caches_match_current_updated (f : bucket -> bucket) url r
    (cs : list (string * bucket)) :
  is_Some (lookup_bucket CACHE_NAME cs) ->
  (forall b : bucket, f b !! url = Some r) ->
  caches_match url
    (filter (fun nb : string * bucket => nb.1 = CACHE_NAME)
            (update_bucket CACHE_NAME f cs))
  = Some r.
Proof.
  intros Hcur Hf. induction cs as [|[n b] cs IH].
  - by destruct Hcur.
  - rewrite lookup_bucket_cons in Hcur. cbn [update_bucket].
    unfold CacheStorage in *. case_bool_decide as Hn.
    + rewrite filter_cons, decide_True by done.
      cbn [caches_match]. by rewrite Hf.
    + rewrite filter_cons, decide_False by done. by apply IH.
Qed.

(** X22. The primed cache serves the application offline. After an
    install step that succeeded and the activation that follows it,
    whatever the caches held before, a request for the URL of a
    manifest entry that the listener answers is answered, when the
    network fails, with the response the install step fetched for that
    entry. *)
Theorem primed_entry_served_offline (online down : Platform)
    (origin u : string) (s : State) :
  open_ok online = true -> put_ok online = true ->
  NoDup (resolve (base online) <$> urlsToCache) ->
  (forall v, v ∈ urlsToCache ->
     exists r, fetch online (resolve (base online) v) = Some r /\ ok r = true) ->
  u ∈ urlsToCache ->
  eligible origin (resolve (base online) u) ->
  fetch down (resolve (base online) u) = None ->
  exists r,
    fetch online (resolve (base online) u) = Some r
    /\ (fetch_listener down origin (resolve (base online) u)
          (activate (install online s).2).2).1
       = RespondWith (Some r).
Proof.
  intros Ho Hp Hnd Hok Hu He Hd.
  destruct (Hok u Hu) as (r & Hr & _). exists r. split; [done|].
  destruct (fetch_listener_offline down origin _
              (activate (install online s).2).2 He Hd) as [-> _].
  f_equal. rewrite activate_caches.
  destruct (fetch_all_total online (resolve (base online) <$> urlsToCache))
    as [l Hl].
  { intros v (v' & -> & Hv)%list_elem_of_fmap. by apply Hok. }
  destruct (fetch_all_ok online _ l Hl) as [Hkeys Hvals].
  rewrite (install_success online s l Ho Hp Hnd Hl). cbn [snd caches].
  apply caches_match_current_updated.
  - destruct (lookup_bucket CACHE_NAME (caches s)) eqn:Eb; [by eexists|].
    rewrite lookup_bucket_app_new, Eb, bool_decide_eq_true_2 by done.
    by eexists.
  - intros b. rewrite (put_all_lookup (fetch online)), Hkeys by done.
    rewrite decide_True; [done|]. by apply list_elem_of_fmap_2.
Qed.

Lemma primed_entry_served_offline_witness :
  let page := Response 200 basic "asset" in
  let online := MkPlatform (fun _ => Some page) true true
                           "https://app.example/" in
  let old := ("car-app-cache-v0",
              {[ "https://app.example/master.html"
                 := Response 200 basic "old" ]}) in
  (fetch_listener offline app_origin "https://app.example/master.html"
     (activate (install online (MkState [old] [])).2).2).1
  = RespondWith (Some page).
Proof.
  intros page online old.
  destruct (primed_entry_served_offline online offline app_origin
              "./master.html" (MkState [old] [])) as (r & Hr & H).
  - reflexivity.
  - reflexivity.
  - compute_done.
  - intros v _. exists page. split; reflexivity.
  - compute_done.
  - left. reflexivity.
  - reflexivity.
  - cbn in Hr. injection Hr as <-. exact H.
Defined.

End CacheController.
